(** * PhishQS tour statistics: the shared calculation engine

    A shallow embedding of [shared/tourCalculations.js]
    ([calculateTourProgressiveRarestSongs], [calculateLongestSongs]) and of the
    data preparation of [scripts/calculate-tour-stats.js]
    ([fetchTourDataForCalculation], [getFallbackTrackDurations]).

    JavaScript values are the JSON-shaped ones the engine receives: numbers
    are integers ([Z]); NaN, infinities and fractions are outside the model,
    and so are functions, getters and sparse arrays.  A property read on
    [null] or [undefined], and a call of a missing method, raise
    [TypeError]; this is the only exception the engine can raise. *)

From Stdlib Require Import ZArith List String Ascii Bool Lia DecimalString.
From Stdlib Require Import Sorting.Sorted Sorting.Permutation.
Import ListNotations.

Set Warnings "-register-all".
Local Open Scope string_scope.
Local Open Scope list_scope.
Local Open Scope Z_scope.

(** ** JavaScript values *)

Inductive value : Type :=
| VUndefined
| VNull
| VBool (b : bool)
| VNum (n : Z)
| VStr (s : string)
| VObj (fields : list (string * value))
| VArr (elems : list value).

(** Outcome of evaluating an expression or a call. *)
Inductive result (A : Type) : Type :=
| Ok (a : A)
| TypeError.

Arguments Ok {A} a.
Arguments TypeError {A}.

Definition bind {A B : Type} (r : result A) (k : A -> result B) : result B :=
  match r with
  | Ok a => k a
  | TypeError => TypeError
  end.

Notation "x <- e ;; k" := (bind e (fun x => k))
  (at level 61, e at next level, right associativity).

(** Own properties of an object, first binding read. *)
Fixpoint lookup (k : string) (fields : list (string * value)) : value :=
  match fields with
  | [] => VUndefined
  | (k', v) :: rest => if String.eqb k k' then v else lookup k rest
  end.

(** [v.k]: raises on [null] and [undefined]; arrays and strings have
    [length]; every other missing property reads [undefined]. *)
Definition getProp (v : value) (k : string) : result value :=
  match v with
  | VUndefined | VNull => TypeError
  | VObj fields => Ok (lookup k fields)
  | VArr elems =>
      Ok (if String.eqb k "length" then VNum (Z.of_nat (List.length elems))
          else VUndefined)
  | VStr s =>
      Ok (if String.eqb k "length" then VNum (Z.of_nat (String.length s))
          else VUndefined)
  | VBool _ | VNum _ => Ok VUndefined
  end.

(** ToBoolean. *)
Definition truthy (v : value) : bool :=
  match v with
  | VUndefined | VNull => false
  | VBool b => b
  | VNum n => negb (n =? 0)
  | VStr s => negb (String.eqb s "")
  | VObj _ | VArr _ => true
  end.

(** [a || b] on values. *)
Definition orElse (a b : value) : value := if truthy a then a else b.

Definition lowerAscii (c : ascii) : ascii :=
  let n := nat_of_ascii c in
  if (andb (Nat.leb 65 n) (Nat.leb n 90)) then ascii_of_nat (n + 32) else c.

(** [String.prototype.toLowerCase], on the ASCII letters. *)
Fixpoint toLowerCase (s : string) : string :=
  match s with
  | EmptyString => EmptyString
  | String c rest => String (lowerAscii c) (toLowerCase rest)
  end.

(** [v.toLowerCase()]: only strings have the method. *)
Definition callToLowerCase (v : value) : result string :=
  match v with
  | VUndefined | VNull => TypeError
  | VStr s => Ok (toLowerCase s)
  | _ => TypeError
  end.

(** ** [Array.prototype.sort]: stable, by a comparator

    [sortBy cmp] is the stable sort: [a] stays ahead of [b] unless
    [cmp a b > 0].  Both comparators of the engine subtract a numeric key;
    for such a comparator the stable sort is the only arrangement that is
    ordered and keeps equal keys in place ([sortBy_sorted],
    [sortBy_stable]), so which algorithm the runtime uses does not
    matter. *)
Section Sort.
Context {A : Type} (cmp : A -> A -> Z).

Fixpoint insertBy (x : A) (l : list A) : list A :=
  match l with
  | [] => [x]
  | y :: rest => if cmp x y <=? 0 then x :: y :: rest
                 else y :: insertBy x rest
  end.

Fixpoint sortBy (l : list A) : list A :=
  match l with
  | [] => []
  | x :: rest => insertBy x (sortBy rest)
  end.
End Sort.

(** Order of a list sorted by [key], largest first. *)
Definition keyGe {A : Type} (key : A -> Z) (a b : A) : Prop := key a >= key b.

(** [arr.slice(0, n)]. *)
Definition slice0 {A : Type} (n : nat) (l : list A) : list A := firstn n l.

(** ** The record stored per song (the object literal of
    [tourSongGaps.set]) *)
Record RarestSong : Type := mkRarestSong {
  songName : value;
  gap : Z;
  lastPlayed : value;
  tourDate : value;
  tourVenue : value;
  timesPlayed : value;
  historicalVenue : value;
  historicalCity : value;
  historicalState : value;
  historicalLastPlayed : value
}.

(** ** [Map]: keys in insertion order; [set] on a present key keeps its
    place. *)
Definition SongMap : Type := list (string * RarestSong).

Fixpoint mapGet (k : string) (m : SongMap) : option RarestSong :=
  match m with
  | [] => None
  | (k', e) :: rest => if String.eqb k k' then Some e else mapGet k rest
  end.

Fixpoint mapSet (k : string) (e : RarestSong) (m : SongMap) : SongMap :=
  match m with
  | [] => [(k, e)]
  | (k', e') :: rest =>
      if String.eqb k k' then (k', e) :: rest else (k', e') :: mapSet k e rest
  end.

Definition mapValues (m : SongMap) : list RarestSong := map snd m.

(** ** [calculateTourProgressiveRarestSongs] *)

(** The object literal stored for [gapInfo] (whose [songName] is [name] and
    [gap] is [g]) seen in [show]. *)
Definition makeEntry (show gapInfo name : value) (g : Z) : result RarestSong :=
  lp <- getProp gapInfo "lastPlayed" ;;
  date <- getProp show "showDate" ;;
  ven <- getProp show "venue" ;;
  tp <- getProp gapInfo "timesPlayed" ;;
  hv <- getProp gapInfo "historicalVenue" ;;
  hc <- getProp gapInfo "historicalCity" ;;
  hs <- getProp gapInfo "historicalState" ;;
  hlp <- getProp gapInfo "historicalLastPlayed" ;;
  Ok {| songName := name;
        gap := g;
        lastPlayed := orElse lp VNull;
        tourDate := date;
        tourVenue := orElse ven (VStr "Unknown Venue");
        timesPlayed := orElse tp (VNum 100);
        historicalVenue := orElse hv VNull;
        historicalCity := orElse hc VNull;
        historicalState := orElse hs VNull;
        historicalLastPlayed := orElse hlp lp |}.

(** Body of the inner [forEach]: one observation of one show. *)
Definition processGapInfo (show : value) (m : SongMap) (gapInfo : value)
  : result SongMap :=
  name <- getProp gapInfo "songName" ;;
  if negb (truthy name) then Ok m else
  g <- getProp gapInfo "gap" ;;
  match g with
  | VNum n =>
      if n <? 0 then Ok m else
      songKey <- callToLowerCase name ;;
      match mapGet songKey m with
      | Some existingGap =>
          if n >? gap existingGap then
            e <- makeEntry show gapInfo name n ;; Ok (mapSet songKey e m)
          else Ok m
      | None =>
          e <- makeEntry show gapInfo name n ;; Ok (mapSet songKey e m)
      end
  | _ => Ok m
  end.

(** [arr.forEach] with a body that may raise, threading the map. *)
Fixpoint forEachM {S : Type} (body : S -> value -> result S) (l : list value)
  (s : S) : result S :=
  match l with
  | [] => Ok s
  | x :: rest => s' <- body s x ;; forEachM body rest s'
  end.

(** Body of the outer [forEach]: one show. *)
Definition processShow (m : SongMap) (show : value) : result SongMap :=
  _date <- getProp show "showDate" ;;
  gaps <- getProp show "songGaps" ;;
  match gaps with
  | VArr gapInfos => forEachM (processGapInfo show) gapInfos m
  | _ => Ok m
  end.

(** The state of [tourSongGaps] after both loops. *)
Definition collectTourSongGaps (shows : list value) : result SongMap :=
  forEachM processShow shows [].

(** [(a, b) => b.gap - a.gap]. *)
Definition byGapDesc (a b : RarestSong) : Z := gap b - gap a.

Definition calculateTourProgressiveRarestSongs (tourShows : value)
  : result (list RarestSong) :=
  _len <- getProp tourShows "length" ;;
  match tourShows with
  | VArr [] => Ok []
  | VArr shows =>
      tourSongGaps <- collectTourSongGaps shows ;;
      let allSongs := mapValues tourSongGaps in
      Ok (slice0 3 (sortBy byGapDesc allSongs))
  | _ => Ok []
  end.

(** ** [calculateLongestSongs] *)

(** The [filter] predicate: [track && typeof track.durationSeconds ===
    'number' && track.durationSeconds > 0 && track.songName].  The property
    reads come after [track &&], so they never raise. *)
Definition validTrack (track : value) : bool :=
  truthy track &&
  match getProp track "durationSeconds" with
  | Ok (VNum d) =>
      (d >? 0) &&
      match getProp track "songName" with
      | Ok name => truthy name
      | TypeError => false
      end
  | _ => false
  end.

(** [track.durationSeconds] of a track that passed the filter. *)
Definition durationSeconds (track : value) : Z :=
  match getProp track "durationSeconds" with
  | Ok (VNum d) => d
  | _ => 0
  end.

(** [(a, b) => b.durationSeconds - a.durationSeconds]. *)
Definition byDurationDesc (a b : value) : Z :=
  durationSeconds b - durationSeconds a.

Definition calculateLongestSongs (trackDurations : value)
  : result (list value) :=
  _len <- getProp trackDurations "length" ;;
  match trackDurations with
  | VArr [] => Ok []
  | VArr tracks =>
      let validTracks := sortBy byDurationDesc (filter validTrack tracks) in
      Ok (slice0 3 validTracks)
  | _ => Ok []
  end.

(** ** Observations, as the reducer meets them *)

(** The observations of one show, in order, each paired with its show. *)
Definition showObservations (show : value) : list (value * value) :=
  match getProp show "songGaps" with
  | Ok (VArr gapInfos) => map (pair show) gapInfos
  | _ => []
  end.

(** All observations of the tour, in the order the two loops visit them. *)
Definition observations (shows : list value) : list (value * value) :=
  flat_map showObservations shows.

(** Key and gap of an observation that passes the validation of
    [processGapInfo]; [None] for one that is skipped. *)
Definition observed (gapInfo : value) : option (string * Z) :=
  match getProp gapInfo "songName", getProp gapInfo "gap" with
  | Ok (VStr s), Ok (VNum n) =>
      if negb (String.eqb s "") && negb (n <? 0)
      then Some (toLowerCase s, n) else None
  | _, _ => None
  end.

(** [(show, gapInfo)] is the first observation of song [k] in [obs] whose
    gap [g] is the largest one seen for [k]. *)
Definition firstMaximal (obs : list (value * value)) (k : string)
  (show gapInfo : value) (g : Z) : Prop :=
  exists pre post,
    obs = pre ++ (show, gapInfo) :: post /\
    observed gapInfo = Some (k, g) /\
    (forall s gi g', In (s, gi) pre -> observed gi = Some (k, g') -> g' < g) /\
    (forall s gi g', In (s, gi) post -> observed gi = Some (k, g') -> g' <= g).

(** The keys of the valid observations, in order. *)
Definition observedKeys (obs : list (value * value)) : list string :=
  flat_map (fun o => match observed (snd o) with
                     | Some (k, _) => [k]
                     | None => []
                     end) obs.

Definition addKey (acc : list string) (k : string) : list string :=
  if existsb (String.eqb k) acc then acc else acc ++ [k].

(** Each key once, in the order of its first occurrence. *)
Definition firstOccurrences (keys : list string) : list string :=
  fold_left addKey keys [].

(** What the map holds for key [k] once the observations [obs] have been
    folded in: nothing when no valid observation has that key, else the
    object built from the first observation of the largest gap. *)
Definition entryFor (obs : list (value * value)) (k : string)
  (stored : option RarestSong) : Prop :=
  match stored with
  | Some e =>
      exists show gi name,
        firstMaximal obs k show gi (gap e) /\
        getProp gi "songName" = Ok name /\
        makeEntry show gi name (gap e) = Ok e
  | None => forall s gi g, In (s, gi) obs -> observed gi <> Some (k, g)
  end.

Definition retains (obs : list (value * value)) (m : SongMap) : Prop :=
  map fst m = firstOccurrences (observedKeys obs) /\
  forall k, entryFor obs k (mapGet k m).

(** The map [tourSongGaps] a call builds; the early return leaves it
    empty. *)
Definition tourSongGapsOf (tourShows : value) : result SongMap :=
  match tourShows with
  | VArr shows => collectTourSongGaps shows
  | _ => Ok []
  end.

(** The observations a call visits. *)
Definition observationsOf (tourShows : value) : list (value * value) :=
  match tourShows with
  | VArr shows => observations shows
  | _ => []
  end.

(** ** The Summer Tour 2025 scenario *)

Definition scenarioShow (date venue song : string) (g : Z) : value :=
  VObj [("showDate", VStr date);
        ("venue", VStr venue);
        ("songGaps", VArr [VObj [("songName", VStr song); ("gap", VNum g)]])].

Definition summer2025Shows : list value :=
  [scenarioShow "2025-06-24" "Bethel Woods Center for the Arts"
     "Paul and Silas" 323;
   scenarioShow "2025-07-11" "Pine Knob Music Theatre"
     "Devotion To A Dream" 322;
   scenarioShow "2025-07-18" "United Center" "On Your Way Down" 522].

Definition summer2025 : value := VArr summer2025Shows.

(** Name, gap, venue and date of a returned record. *)
Definition summary (e : RarestSong) : value * Z * value * value :=
  (songName e, gap e, tourVenue e, tourDate e).

(** Two shows that both observe "Sand" with gap 45, the second under
    another capitalisation, and a smaller gap in between. *)
Definition sandShows : list value :=
  [scenarioShow "2024-07-15" "United Center" "Sand" 45;
   scenarioShow "2024-07-16" "Alpine Valley" "Sand" 12;
   scenarioShow "2024-07-17" "Deer Creek" "SAND" 45].

(** A show whose venue is the empty string, and an observation that
    carries a venue and a date of its own and [timesPlayed: 0]. *)
Definition emptyVenueShow : value :=
  VObj [("showDate", VStr "2024-07-15");
        ("venue", VStr "");
        ("songGaps",
         VArr [VObj [("songName", VStr "Sand");
                     ("gap", VNum 45);
                     ("tourDate", VStr "2024-07-16");
                     ("tourVenue", VStr "Madison Square Garden");
                     ("timesPlayed", VNum 0)]])].

(** ** Inputs on which the reducer does not raise *)

Definition isString (v : value) : bool :=
  match v with VStr _ => true | _ => false end.

(** An observation the inner loop gets through: an object (anything but
    [null] and [undefined]) whose [songName], when the validation lets it
    pass, is a string. *)
Definition gapInfoOk (gapInfo : value) : bool :=
  match getProp gapInfo "songName" with
  | TypeError => false
  | Ok name =>
      if truthy name then
        match getProp gapInfo "gap" with
        | Ok (VNum n) => (n <? 0) || isString name
        | _ => true
        end
      else true
  end.

Definition showOk (show : value) : bool :=
  match getProp show "songGaps" with
  | TypeError => false
  | Ok (VArr gapInfos) => forallb gapInfoOk gapInfos
  | Ok _ => true
  end.

Definition inputOk (tourShows : value) : bool :=
  match tourShows with
  | VUndefined | VNull => false
  | VArr shows => forallb showOk shows
  | _ => true
  end.

(** A show whose only observation names its song by the number 555. *)
Definition numericNameShows : value :=
  VArr [VObj [("showDate", VStr "2025-07-01");
              ("venue", VStr "Test Venue");
              ("songGaps",
               VArr [VObj [("songName", VNum 555); ("gap", VNum 7)]])]].

(** ** Arrays as mutable objects

    [sort] rearranges the array it is called on, while [filter], [slice]
    and [Array.from] build a new one.  To see which array a call touches,
    the two functions are run here on a store of arrays: the argument and
    the result are addresses.  Elements are values, which no statement of
    the engine assigns to. *)

Definition heap : Type := list (list value).

Definition load (a : nat) (h : heap) : option (list value) := nth_error h a.

Definition contents (a : nat) (h : heap) : list value :=
  match load a h with Some l => l | None => [] end.

(** A new array: its address, and the store that holds it. *)
Definition alloc (l : list value) (h : heap) : nat * heap :=
  (List.length h, h ++ [l]).

(** Overwrite the array at [a]. *)
Fixpoint store (a : nat) (l : list value) (h : heap) : heap :=
  match h, a with
  | [], _ => []
  | _ :: rest, O => l :: rest
  | x :: rest, S a' => x :: store a' l rest
  end.

(** [arr.filter(p)]. *)
Definition arrFilter (p : value -> bool) (a : nat) (h : heap) : nat * heap :=
  alloc (filter p (contents a h)) h.

(** [arr.sort(cmp)]: in place; the value of the call is [arr] itself. *)
Definition arrSort (cmp : value -> value -> Z) (a : nat) (h : heap) : heap :=
  store a (sortBy cmp (contents a h)) h.

(** [arr.slice(0, n)]. *)
Definition arrSlice0 (n : nat) (a : nat) (h : heap) : nat * heap :=
  alloc (firstn n (contents a h)) h.

(** The stored record as the object it is. *)
Definition songObject (e : RarestSong) : value :=
  VObj [("songName", songName e);
        ("gap", VNum (gap e));
        ("lastPlayed", lastPlayed e);
        ("tourDate", tourDate e);
        ("tourVenue", tourVenue e);
        ("timesPlayed", timesPlayed e);
        ("historicalVenue", historicalVenue e);
        ("historicalCity", historicalCity e);
        ("historicalState", historicalState e);
        ("historicalLastPlayed", historicalLastPlayed e)].

(** [song.gap] of such an object. *)
Definition gapOf (song : value) : Z :=
  match getProp song "gap" with
  | Ok (VNum n) => n
  | _ => 0
  end.

(** [(a, b) => b.gap - a.gap], on the objects. *)
Definition byGapDescObj (a b : value) : Z := gapOf b - gapOf a.

(** Every array of [h] is in [h'], at its address, as it was. *)
Definition preserved (h h' : heap) : Prop :=
  forall a l, load a h = Some l -> load a h' = Some l.

(** [calculateLongestSongs] on the store. *)
Definition calculateLongestSongsRef (trackDurations : nat) (h : heap)
  : result (nat * heap) :=
  match load trackDurations h with
  | None => TypeError
  | Some [] => Ok (alloc [] h)
  | Some (_ :: _) =>
      let (validTracks, h1) := arrFilter validTrack trackDurations h in
      let h2 := arrSort byDurationDesc validTracks h1 in
      Ok (arrSlice0 3 validTracks h2)
  end.

(** [calculateTourProgressiveRarestSongs] on the store; the [Map] is local
    to the call. *)
Definition calculateTourProgressiveRarestSongsRef (tourShows : nat)
  (h : heap) : result (nat * heap) :=
  match load tourShows h with
  | None => TypeError
  | Some [] => Ok (alloc [] h)
  | Some ((_ :: _) as shows) =>
      tourSongGaps <- collectTourSongGaps shows ;;
      let (allSongs, h1) :=
        alloc (map songObject (mapValues tourSongGaps)) h in
      let (highGapSongs, h2) :=
        arrFilter (fun song => gapOf song >? 200) allSongs h1 in
      let h3 := arrSort byGapDescObj highGapSongs h2 in
      let h4 := match contents highGapSongs h3 with
                | [] => h3
                | _ :: _ => snd (arrSlice0 10 highGapSongs h3)
                end in
      let h5 := arrSort byGapDescObj allSongs h4 in
      Ok (arrSlice0 3 allSongs h5)
  end.

(** ** Data preparation ([scripts/calculate-tour-stats.js],
    [scripts/phish-net-client.js])

    The awaited calls to the two catalog clients are inputs here: each is
    given by its outcome. *)

Inductive outcome (A : Type) : Type :=
| Resolved (a : A)
| Rejected.

Arguments Resolved {A} a.
Arguments Rejected {A}.

(** [for (const x of v)]: arrays give their elements, strings their
    characters; nothing else in this model is iterable. *)
Definition iterate (v : value) : result (list value) :=
  match v with
  | VArr elems => Ok elems
  | VStr s => Ok (map (fun c => VStr (String c EmptyString))
                    (list_ascii_of_string s))
  | _ => TypeError
  end.

(** SameValueZero, as [includes] compares; two objects parsed from JSON
    are never the same object. *)
Definition sameValueZero (a b : value) : bool :=
  match a, b with
  | VUndefined, VUndefined => true
  | VNull, VNull => true
  | VBool x, VBool y => Bool.eqb x y
  | VNum x, VNum y => x =? y
  | VStr x, VStr y => String.eqb x y
  | _, _ => false
  end.

Definition includes (arr : list value) (x : value) : bool :=
  existsb (sameValueZero x) arr.

(** [PhishNetClient.extractSongNames]: the inner loop body. *)
Definition addSong (songs : list value) (song : value) : result (list value) :=
  name <- getProp song "song" ;;
  Ok (if truthy name && negb (includes songs name) then songs ++ [name]
      else songs).

(** The outer loop body. *)
Definition addSet (songs : list value) (set : value) : result (list value) :=
  setSongs <- getProp set "songs" ;;
  if truthy setSongs then
    items <- iterate setSongs ;; forEachM addSong items songs
  else Ok songs.

Definition extractSongNames (setlist : value) : result (list value) :=
  data <- getProp setlist "setlistdata" ;;
  if truthy data then
    sets <- iterate data ;; forEachM addSet sets []
  else Ok [].

(** Every element is truthy. *)
Definition allTruthy (l : list value) : Prop :=
  Forall (fun v => truthy v = true) l.

(** [venue !== 'Unknown Venue']. *)
Definition isUnknownVenue (v : value) : bool :=
  match v with VStr s => String.eqb s "Unknown Venue" | _ => false end.

(** [TourStatisticsCalculator.extractVenue]. *)
Definition extractVenue (apiResponse : value) : result value :=
  v1 <- getProp apiResponse "venue" ;;
  v2 <- getProp apiResponse "venuename" ;;
  v3 <- getProp apiResponse "venue_name" ;;
  v4 <- getProp apiResponse "location" ;;
  let venue := orElse v1 (orElse v2 (orElse v3 (orElse v4 VNull))) in
  Ok (if truthy venue && negb (isUnknownVenue venue) then venue
      else VStr "Unknown Venue").

(** [songNames.map((songName, index) => ...)] of
    [getFallbackTrackDurations], from index [index] on. *)
Fixpoint fallbackTracks (index : Z) (songNames : list value)
  (showDate venue : value) : list value :=
  match songNames with
  | [] => []
  | name :: rest =>
      VObj [("songName", name);
            ("durationSeconds", VNum (600 - index * 60));
            ("showDate", showDate);
            ("venue", venue);
            ("venueRun", VNull)]
      :: fallbackTracks (index + 1) rest showDate venue
  end.

(** [getFallbackTrackDurations], given the outcome of
    [fetchShowSetlist(latestShowDate)]; whatever is raised inside is
    caught and answered with an empty array. *)
Definition getFallbackTrackDurations (fetchShowSetlist : outcome value)
  (latestShowDate : value) : value :=
  match fetchShowSetlist with
  | Rejected => VArr []
  | Resolved latestSetlist =>
      match (songNames <- extractSongNames latestSetlist ;;
             venue <- extractVenue latestSetlist ;;
             Ok (fallbackTracks 0 (slice0 5 songNames) latestShowDate venue))
      with
      | Ok tracks => VArr tracks
      | TypeError => VArr []
      end
  end.

Record TourData : Type := mkTourData {
  allTourTrackDurations : value;
  tourShows : value
}.

(** [allTourTrackDurations.length === 0]. *)
Definition hasLengthZero (v : value) : bool :=
  match getProp v "length" with
  | Ok (VNum 0) => true
  | _ => false
  end.

(** [fetchTourDataForCalculation], given the outcomes of
    [fetchTourTrackDurations] and [fetchTourShowsWithGaps] and what the two
    calls of [getFallbackTrackDurations] (in the [try] block, in the
    [catch] block) return. *)
Definition fetchTourDataForCalculation
  (fetchTourTrackDurations fetchTourShowsWithGaps : outcome value)
  (fallbackInTry fallbackInCatch : value) : TourData :=
  let caught := {| allTourTrackDurations := fallbackInCatch;
                   tourShows := VArr [] |} in
  match fetchTourTrackDurations with
  | Rejected => caught
  | Resolved durations =>
      if negb (truthy durations) || hasLengthZero durations then
        match fetchTourShowsWithGaps with
        | Resolved shows => {| allTourTrackDurations := fallbackInTry;
                               tourShows := shows |}
        | Rejected => caught
        end
      else
        match fetchTourShowsWithGaps with
        | Resolved shows =>
            match getProp shows "length" with
            | Ok _ => {| allTourTrackDurations := durations;
                         tourShows := shows |}
            | TypeError => caught
            end
        | Rejected => caught
        end
  end.


(** A setlist as Phish.net answers it. *)
Definition sampleSetlist : value :=
  VObj [("showdate", VStr "2025-07-27");
        ("venue", VStr "Broadview Stage at SPAC");
        ("setlistdata",
         VArr [VObj [("songs", VArr [VObj [("song", VStr "Tweezer")];
                                     VObj [("song", VStr "Sand")]])];
               VObj [("songs", VArr [VObj [("song", VStr "Ghost")];
                                     VObj [("song", VStr "Tweezer")];
                                     VObj [("song", VStr "Harry Hood")]])]])].

(** ** Inputs of the repository's own tests ([testEdgeCases]) *)

Definition invalidGapShows : value :=
  VArr [VObj [("showDate", VStr "2025-07-01");
              ("venue", VStr "Test Venue");
              ("songGaps",
               VArr [VObj [("songName", VStr "Valid Song"); ("gap", VNum 100)];
                     VObj [("songName", VNull); ("gap", VNum 200)];
                     VObj [("songName", VStr "Invalid Gap")];
                     VObj [("songName", VStr "Negative Gap");
                           ("gap", VNum (-10))]])]].

Definition track (name : value) (seconds : Z) : value :=
  VObj [("songName", name); ("durationSeconds", VNum seconds)].

Definition invalidTracks : value :=
  VArr [track (VStr "Valid Song") 180;
        track (VStr "Invalid Song") (-1);
        track (VStr "Zero Duration") 0;
        track VNull 120;
        VObj [("durationSeconds", VNum 150)]].

Definition summer2025Tracks : value :=
  VArr [track (VStr "What's Going Through Your Mind") 2544;
        track (VStr "Sand") 2383;
        track (VStr "Down with Disease") 2048;
        track (VStr "Harry Hood") 1456;
        track (VStr "Tweezer") 1383].

(** ** Further views of the reducer's records *)

(** The key under which a stored record lies:
    [song.songName.toLowerCase()]. *)
Definition songKey (e : RarestSong) : option string :=
  match songName e with
  | VStr s => Some (toLowerCase s)
  | _ => None
  end.

(** An observation with a date and a venue of its own written over
    whatever it carried. *)
Definition withEmbeddedContext (date venue : value) (gapInfo : value) : value :=
  match gapInfo with
  | VObj fields => VObj (("tourDate", date) :: ("tourVenue", venue) :: fields)
  | other => other
  end.

(** ** Views of the data preparation *)

(** [songs.push] under the test of [extractSongNames]. *)
Definition pushNew (songs : list value) (name : value) : list value :=
  if truthy name && negb (includes songs name) then songs ++ [name]
  else songs.

(** The [song] fields the inner loop of [extractSongNames] meets in
    [items], in order. *)
Definition songsOf (items : list value) : list value :=
  flat_map (fun song => match getProp song "song" with
                        | Ok name => [name]
                        | TypeError => []
                        end) items.

(** Those of one set. *)
Definition setSongs (set : value) : list value :=
  match getProp set "songs" with
  | Ok setSongs =>
      if truthy setSongs then
        match iterate setSongs with Ok items => songsOf items | TypeError => [] end
      else []
  | TypeError => []
  end.

(** Those of a setlist. *)
Definition songCandidates (setlist : value) : list value :=
  match getProp setlist "setlistdata" with
  | Ok data =>
      if truthy data then
        match iterate data with
        | Ok sets => flat_map setSongs sets
        | TypeError => []
        end
      else []
  | TypeError => []
  end.

(** ** Formatting for the published file ([formatLongestSongsForAPI],
    [formatRarestSongsForAPI]) *)

(** Number::toString of an integer, below the magnitude where JavaScript
    switches to exponent notation. *)
Definition decimal (n : Z) : string := NilZero.string_of_int (Z.to_int n).

(** ToString, as a template literal applies it: an array joins its
    elements with commas, [null] and [undefined] elements as nothing. *)
Fixpoint toStr (v : value) : string :=
  match v with
  | VUndefined => "undefined"
  | VNull => "null"
  | VBool true => "true"
  | VBool false => "false"
  | VNum n => decimal n
  | VStr s => s
  | VObj _ => "[object Object]"
  | VArr elems =>
      (fix join (l : list value) : string :=
         match l with
         | [] => ""
         | x :: rest =>
             (match x with
              | VUndefined | VNull => ""
              | _ => toStr x
              end
              ++ match rest with
                 | [] => ""
                 | _ :: _ => "," ++ join rest
                 end)%string
         end) elems
  end.

(** [arr.map(f)] with a callback that may raise. *)
Fixpoint mapM (f : value -> result value) (l : list value)
  : result (list value) :=
  match l with
  | [] => Ok []
  | x :: rest => y <- f x ;; ys <- mapM f rest ;; Ok (y :: ys)
  end.

(** [v.map(f)]: only arrays have the method. *)
Definition arrayMap (f : value -> result value) (v : value) : result value :=
  match v with
  | VArr elems => ys <- mapM f elems ;; Ok (VArr ys)
  | _ => TypeError
  end.

(** The callback of [formatLongestSongsForAPI]. *)
Definition formatLongestSong (song : value) : result value :=
  name <- getProp song "songName" ;;
  seconds <- getProp song "durationSeconds" ;;
  showDate <- getProp song "showDate" ;;
  venue <- getProp song "venue" ;;
  venueRun <- getProp song "venueRun" ;;
  run <- (if truthy venueRun then
            night <- getProp venueRun "nightNumber" ;;
            total <- getProp venueRun "totalNights" ;;
            text <- getProp venueRun "displayText" ;;
            Ok (VObj [("showNumber", orElse night (VNum 1));
                      ("totalShows", orElse total (VNum 1));
                      ("displayText",
                       orElse text
                         (VStr ("N" ++ toStr (orElse night (VNum 1)) ++ "/"
                                ++ toStr (orElse total (VNum 1)))%string))])
          else Ok VNull) ;;
  Ok (VObj [("songName", name);
            ("durationSeconds", seconds);
            ("showDate", showDate);
            ("venue", orElse venue (VStr "Unknown Venue"));
            ("venueRun", run)]).

Definition formatLongestSongsForAPI (longestSongs : value) : result value :=
  arrayMap formatLongestSong longestSongs.

(** The callback of [formatRarestSongsForAPI], on a record of the
    reducer. *)
Definition formatRarestSong (song : RarestSong) : value :=
  VObj [("songName", songName song);
        ("gap", VNum (gap song));
        ("lastPlayed", orElse (lastPlayed song) (historicalLastPlayed song));
        ("tourDate", tourDate song);
        ("tourVenue", orElse (tourVenue song) (VStr "Unknown Venue"))].

(** [formatRarestSongsForAPI], on the array the reducer returns. *)
Definition formatRarestSongsForAPI (rarestSongs : list RarestSong)
  : list value :=
  map formatRarestSong rarestSongs.

(** A track with a venue run that has no display text. *)
Definition runTrack : value :=
  VObj [("songName", VStr "Tweezer");
        ("durationSeconds", VNum 1383);
        ("showDate", VStr "2025-07-16");
        ("venue", VStr "");
        ("venueRun", VObj [("nightNumber", VNum 2); ("totalNights", VNum 3)])].

(** ** [fetchTourShowsWithGaps]

    The calls to the Phish.net client made for the show at position
    [index] of the loop are given by their outcomes.  Inside a [try] block
    a rejected call and a raised [TypeError] end in the same [catch]. *)

Definition caught {A : Type} (r : result A) : option A :=
  match r with Ok a => Some a | TypeError => None end.

Definition awaited {A : Type} (o : outcome A) : option A :=
  match o with Resolved a => Some a | Rejected => None end.

Definition obind {A B : Type} (o : option A) (k : A -> option B) : option B :=
  match o with Some a => k a | None => None end.

Notation "x <~ e ;; k" := (obind e (fun x => k))
  (at level 61, e at next level, right associativity).

(** The callback of [gapData.map]. *)
Definition enhanceGap (showdate venue gap : value) : result value :=
  name <- getProp gap "songName" ;;
  g <- getProp gap "gap" ;;
  lp <- getProp gap "lastPlayed" ;;
  tp <- getProp gap "timesPlayed" ;;
  Ok (VObj [("songName", name);
            ("gap", g);
            ("lastPlayed", lp);
            ("tourDate", showdate);
            ("tourVenue", venue);
            ("timesPlayed", orElse tp (VNum 100))]).

(** The [try] block of the loop body: the enhanced show, or [None] when
    anything in it is rejected or raises. *)
Definition enhanceShowTry
  (fetchShowSetlist : nat -> value -> outcome value)
  (fetchSongGaps : nat -> list value -> value -> outcome value)
  (index : nat) (show : value) : option value :=
  showdate <~ caught (getProp show "showdate") ;;
  setlist <~ awaited (fetchShowSetlist index showdate) ;;
  fromSetlist <~ caught (extractVenue setlist) ;;
  venue <~ (if negb (isUnknownVenue fromSetlist)
            then caught (extractVenue setlist)
            else caught (extractVenue show)) ;;
  songNames <~ caught (extractSongNames setlist) ;;
  gapData <~ awaited (fetchSongGaps index songNames showdate) ;;
  songGaps <~ caught (arrayMap (enhanceGap showdate venue) gapData) ;;
  Some (VObj [("showDate", showdate);
              ("venue", venue);
              ("songGaps", songGaps);
              ("trackDurations", VArr [])]).

(** The [catch] block of the loop body. *)
Definition enhanceShowCatch (show : value) : result value :=
  showdate <- getProp show "showdate" ;;
  venue <- getProp show "venue" ;;
  Ok (VObj [("showDate", showdate);
            ("venue", orElse venue (VStr "Unknown Venue"));
            ("songGaps", VArr []);
            ("trackDurations", VArr [])]).

(** The loop, from position [index] on; [TypeError] when a [catch] block
    raises. *)
Fixpoint enhanceShows
  (fetchShowSetlist : nat -> value -> outcome value)
  (fetchSongGaps : nat -> list value -> value -> outcome value)
  (index : nat) (shows : list value) : result (list value) :=
  match shows with
  | [] => Ok []
  | show :: rest =>
      enhanced <- match enhanceShowTry fetchShowSetlist fetchSongGaps
                          index show with
                  | Some s => Ok s
                  | None => enhanceShowCatch show
                  end ;;
      others <- enhanceShows fetchShowSetlist fetchSongGaps (S index) rest ;;
      Ok (enhanced :: others)
  end.

(** [fetchTourShowsWithGaps], given the outcome of [fetchAllTourShows]. *)
Definition fetchTourShowsWithGaps (fetchAllTourShows : outcome value)
  (fetchShowSetlist : nat -> value -> outcome value)
  (fetchSongGaps : nat -> list value -> value -> outcome value) : value :=
  match fetchAllTourShows with
  | Rejected => VArr []
  | Resolved tourShows =>
      match (shows <- iterate tourShows ;;
             enhanceShows fetchShowSetlist fetchSongGaps 0 shows) with
      | Ok enhancedShows => VArr enhancedShows
      | TypeError => VArr []
      end
  end.

(** What every show that [fetchTourShowsWithGaps] builds looks like: a
    truthy venue, and observations that carry the date and the venue of
    their show and a truthy [timesPlayed]. *)
Definition enhancedShape (enhanced : value) : Prop :=
  exists showDate venue gapInfos,
    getProp enhanced "showDate" = Ok showDate /\
    getProp enhanced "venue" = Ok venue /\
    truthy venue = true /\
    getProp enhanced "songGaps" = Ok (VArr gapInfos) /\
    forall gi,
      In gi gapInfos ->
      getProp gi "tourDate" = Ok showDate /\
      getProp gi "tourVenue" = Ok venue /\
      exists tp, getProp gi "timesPlayed" = Ok tp /\ truthy tp = true.




(** ** The Phish.in client ([PhishInClient.fetchTourTrackDurations]) *)

(** [v?.k]. *)
Definition optProp (v : value) (k : string) : result value :=
  match v with
  | VUndefined | VNull => Ok VUndefined
  | _ => getProp v k
  end.

(** [PhishInClient.extractVenueRun]. *)
Definition extractVenueRun (show : value) : result value :=
  if negb (truthy show) then Ok VNull else
  venue <- getProp show "venue" ;;
  if negb (truthy venue) then Ok VNull else
  Ok (VObj [("showNumber", VNum 1);
            ("totalShows", VNum 1);
            ("displayText", VStr "N1/1")]).

(** The callback of [response.data.map]. *)
Definition convertTrack (track : value) : result value :=
  title <- getProp track "title" ;;
  name <- getProp track "name" ;;
  duration <- getProp track "duration" ;;
  show <- getProp track "show" ;;
  date <- optProp show "date" ;;
  venue <- optProp show "venue" ;;
  venueName <- optProp venue "name" ;;
  run <- extractVenueRun show ;;
  Ok (VObj [("songName", orElse title name);
            ("durationSeconds", orElse duration (VNum 0));
            ("showDate", orElse date (VStr ""));
            ("venue", orElse venueName (VStr ""));
            ("venueRun", run)]).

(** [PhishInClient.fetchTourTrackDurations], given the outcome of its
    request.  Everything is inside [try]: a rejected request, a response
    without [data] and anything raised while converting are answered with
    an empty array, so the call itself is never rejected.
    [tourNameToSlug] raises unless the tour name is a string; the slug goes
    into the address of the request only. *)
Definition fetchTourTrackDurations (tourName : value)
  (makeRequest : outcome value) : value :=
  match callToLowerCase tourName with
  | TypeError => VArr []
  | Ok _ =>
      match makeRequest with
      | Rejected => VArr []
      | Resolved response =>
          match (data <- getProp response "data" ;;
                 if negb (truthy data) then Ok (VArr [])
                 else arrayMap convertTrack data) with
          | Ok trackDurations => trackDurations
          | TypeError => VArr []
          end
      end
  end.



(** The setlist of the latest show can be fetched. *)
Definition latestSetlist (index : nat) (showdate : value) : outcome value :=
  Resolved sampleSetlist.

(** * Properties *)

(** ** The error monad *)

Lemma bind_Ok_inv {A B : Type} (r : result A) (k : A -> result B) (b : B) :
  bind r k = Ok b -> exists a, r = Ok a /\ k a = Ok b.
Proof.
  destruct r as [a|]; simpl; intros H; [exists a; auto | discriminate].
Qed.

Lemma in_firstn {A : Type} (n : nat) (l : list A) (x : A) :
  In x (firstn n l) -> In x l.
Proof.
  intros H. rewrite <- (firstn_skipn n l). apply in_or_app. now left.
Qed.

(** ** The stable sort by a numeric key, largest first *)

Section SortByKey.
Context {A : Type} (key : A -> Z) (cmp : A -> A -> Z).
Hypothesis cmp_key : forall a b, cmp a b = key b - key a.

Lemma insertBy_perm (x : A) (l : list A) :
  Permutation (x :: l) (insertBy cmp x l).
Proof.
  induction l as [|y l IH]; simpl; [reflexivity|].
  destruct (cmp x y <=? 0); [reflexivity|].
  rewrite perm_swap. now constructor.
Qed.

Lemma sortBy_perm (l : list A) : Permutation l (sortBy cmp l).
Proof.
  induction l as [|x l IH]; simpl; [constructor|].
  rewrite <- insertBy_perm. now constructor.
Qed.

Lemma insertBy_sorted (x : A) (l : list A) :
  StronglySorted (keyGe key) l -> StronglySorted (keyGe key) (insertBy cmp x l).
Proof.
  induction l as [|y l IH]; simpl; intros Hs.
  - repeat constructor.
  - inversion Hs as [|? ? Hl Hy]; subst.
    destruct (cmp x y <=? 0) eqn:E.
    + apply Z.leb_le in E. rewrite cmp_key in E.
      constructor; [assumption|].
      constructor; [unfold keyGe; lia|].
      rewrite Forall_forall in *. intros z Hz.
      specialize (Hy z Hz). unfold keyGe in *. lia.
    + apply Z.leb_gt in E. rewrite cmp_key in E.
      constructor; [auto|].
      rewrite Forall_forall in *. intros z Hz.
      apply (Permutation_in _ (Permutation_sym (insertBy_perm x l))) in Hz.
      destruct Hz as [<-|Hz]; [unfold keyGe; lia | auto].
Qed.

Lemma sortBy_sorted (l : list A) : StronglySorted (keyGe key) (sortBy cmp l).
Proof.
  induction l as [|x l IH]; simpl; [constructor|].
  now apply insertBy_sorted.
Qed.

(** Stability: the elements of one key keep the order they had. *)
Lemma insertBy_stable (k : Z) (x : A) (l : list A) :
  filter (fun a => key a =? k) (insertBy cmp x l)
  = filter (fun a => key a =? k) (x :: l).
Proof.
  induction l as [|y l IH]; [reflexivity|].
  simpl insertBy. destruct (cmp x y <=? 0) eqn:E; [reflexivity|].
  apply Z.leb_gt in E. rewrite cmp_key in E.
  change (filter (fun a => key a =? k) (y :: insertBy cmp x l))
    with (if key y =? k then y :: filter (fun a => key a =? k) (insertBy cmp x l)
          else filter (fun a => key a =? k) (insertBy cmp x l)).
  rewrite IH. simpl.
  destruct (key x =? k) eqn:Ex; [|reflexivity].
  destruct (key y =? k) eqn:Ey; [|reflexivity].
  apply Z.eqb_eq in Ex, Ey. lia.
Qed.

Lemma sortBy_stable (k : Z) (l : list A) :
  filter (fun a => key a =? k) (sortBy cmp l)
  = filter (fun a => key a =? k) l.
Proof.
  induction l as [|x l IH]; [reflexivity|].
  simpl sortBy. rewrite insertBy_stable. simpl. now rewrite IH.
Qed.

Lemma firstn_sorted (n : nat) (l : list A) :
  StronglySorted (keyGe key) l -> StronglySorted (keyGe key) (firstn n l).
Proof.
  intros Hs. revert n.
  induction Hs as [|x l Hs IH Hx]; intros [|n]; simpl; try constructor.
  - apply IH.
  - rewrite Forall_forall in *. intros z Hz. apply Hx.
    eapply in_firstn; eauto.
Qed.
End SortByKey.

(** ** The map *)

Lemma mapGet_mapSet_eq (k : string) (e : RarestSong) (m : SongMap) :
  mapGet k (mapSet k e m) = Some e.
Proof.
  induction m as [|[k' e'] m IH]; simpl.
  - now rewrite String.eqb_refl.
  - destruct (String.eqb k k') eqn:E; simpl; rewrite E; auto.
Qed.

Lemma mapGet_mapSet_neq (k k' : string) (e : RarestSong) (m : SongMap) :
  k' <> k -> mapGet k' (mapSet k e m) = mapGet k' m.
Proof.
  intros Hne. induction m as [|[k0 e0] m IH]; simpl.
  - apply String.eqb_neq in Hne. now rewrite Hne.
  - destruct (String.eqb k k0) eqn:E; simpl.
    + apply String.eqb_eq in E. subst k0.
      apply String.eqb_neq in Hne. now rewrite Hne.
    + now rewrite IH.
Qed.

Lemma mapSet_keys (k : string) (e : RarestSong) (m : SongMap) :
  map fst (mapSet k e m) = addKey (map fst m) k.
Proof.
  unfold addKey. induction m as [|[k0 e0] m IH]; simpl; [reflexivity|].
  destruct (String.eqb k k0) eqn:E; simpl; [reflexivity|].
  rewrite IH. now destruct (existsb (String.eqb k) (map fst m)).
Qed.

Lemma mapGet_keys (k : string) (m : SongMap) :
  existsb (String.eqb k) (map fst m)
  = match mapGet k m with Some _ => true | None => false end.
Proof.
  induction m as [|[k0 e0] m IH]; simpl; [reflexivity|].
  destruct (String.eqb k k0); simpl; auto.
Qed.

Lemma mapGet_In (k : string) (e : RarestSong) (m : SongMap) :
  mapGet k m = Some e -> In e (mapValues m).
Proof.
  induction m as [|[k0 e0] m IH]; simpl; [discriminate|].
  destruct (String.eqb k k0); intros H; [left; congruence | right; auto].
Qed.

Lemma addKey_NoDup (acc : list string) (k : string) :
  NoDup acc -> NoDup (addKey acc k).
Proof.
  intros Hnd. unfold addKey.
  destruct (existsb (String.eqb k) acc) eqn:E; [assumption|].
  apply NoDup_app; [assumption | repeat constructor; simpl; tauto |].
  intros x Hx [Hk|[]]. subst x.
  assert (existsb (String.eqb k) acc = true) as Hex; [|congruence].
  apply existsb_exists. exists k. split; [assumption | apply String.eqb_refl].
Qed.

Lemma firstOccurrences_snoc (keys : list string) (k : string) :
  firstOccurrences (keys ++ [k]) = addKey (firstOccurrences keys) k.
Proof. unfold firstOccurrences. now rewrite fold_left_app. Qed.

Lemma firstOccurrences_NoDup (keys : list string) :
  NoDup (firstOccurrences keys).
Proof.
  induction keys as [|k keys IH] using rev_ind; [constructor|].
  rewrite firstOccurrences_snoc. now apply addKey_NoDup.
Qed.

Lemma In_mapGet (k : string) (e : RarestSong) (m : SongMap) :
  NoDup (map fst m) -> In (k, e) m -> mapGet k m = Some e.
Proof.
  induction m as [|[k0 e0] m IH]; simpl; [tauto|].
  intros Hnd [Heq|Hin].
  - injection Heq as -> ->. now rewrite String.eqb_refl.
  - inversion Hnd as [|? ? Hk Hnd']; subst.
    destruct (String.eqb k k0) eqn:E; [|auto].
    apply String.eqb_eq in E. subst. exfalso. apply Hk.
    change k0 with (fst (k0, e)). now apply in_map.
Qed.

(** ** One observation *)

Lemma makeEntry_gap (show gi name : value) (n : Z) (e : RarestSong) :
  makeEntry show gi name n = Ok e -> gap e = n.
Proof.
  unfold makeEntry. intros H.
  repeat (apply bind_Ok_inv in H; destruct H as [? [_ H]]).
  injection H as <-. reflexivity.
Qed.

Lemma callToLowerCase_Ok (v : value) (k : string) :
  callToLowerCase v = Ok k -> exists s, v = VStr s /\ k = toLowerCase s.
Proof.
  destruct v; simpl; try discriminate.
  intros H. injection H as <-. eauto.
Qed.

(** The branches of [processGapInfo], read off a run that returns. *)
Lemma processGapInfo_cases (show gi : value) (m m' : SongMap) :
  processGapInfo show m gi = Ok m' ->
  (observed gi = None /\ m' = m) \/
  (exists k n name,
      observed gi = Some (k, n) /\
      getProp gi "songName" = Ok name /\
      match mapGet k m with
      | Some existing =>
          if n >? gap existing
          then exists e, makeEntry show gi name n = Ok e /\ m' = mapSet k e m
          else m' = m
      | None => exists e, makeEntry show gi name n = Ok e /\ m' = mapSet k e m
      end).
Proof.
  unfold processGapInfo. intros H.
  apply bind_Ok_inv in H. destruct H as [name [Hname H]].
  unfold observed. rewrite Hname.
  destruct (truthy name) eqn:Ht; simpl in H.
  2:{ left. injection H as <-. split; [|reflexivity].
      destruct name; try reflexivity. simpl in Ht.
      destruct (getProp gi "gap") as [[]|]; try reflexivity.
      apply negb_false_iff in Ht. now rewrite Ht. }
  apply bind_Ok_inv in H. destruct H as [g [Hg H]]. rewrite Hg.
  destruct g as [| | |n| | |];
    try (left; injection H as <-; split; [now destruct name | reflexivity]).
  destruct (n <? 0) eqn:En.
  { left. injection H as <-. split; [|reflexivity].
    destruct name; try reflexivity. now rewrite andb_false_r. }
  apply bind_Ok_inv in H. destruct H as [k [Hk H]].
  apply callToLowerCase_Ok in Hk. destruct Hk as [s [-> ->]].
  simpl in Ht. rewrite Ht. simpl.
  right. exists (toLowerCase s), n, (VStr s).
  split; [reflexivity|]. split; [reflexivity|].
  destruct (mapGet (toLowerCase s) m) as [existing|].
  - destruct (n >? gap existing).
    + apply bind_Ok_inv in H. destruct H as [e [He H]].
      injection H as <-. eauto.
    + now injection H as <-.
  - apply bind_Ok_inv in H. destruct H as [e [He H]].
    injection H as <-. eauto.
Qed.

(** ** First occurrence of the largest gap *)

Lemma firstMaximal_bound obs k show gi g :
  firstMaximal obs k show gi g ->
  forall s gi' g', In (s, gi') obs -> observed gi' = Some (k, g') -> g' <= g.
Proof.
  intros (pre & post & -> & Hobs & Hpre & Hpost) s gi' g' Hin Hg'.
  apply in_app_or in Hin. destruct Hin as [Hin|[Heq|Hin]].
  - specialize (Hpre _ _ _ Hin Hg'). lia.
  - injection Heq as <- <-. rewrite Hobs in Hg'. injection Hg' as <-. lia.
  - eauto.
Qed.

Lemma firstMaximal_snoc_keep obs k show gi g s' gi' :
  firstMaximal obs k show gi g ->
  (forall g', observed gi' = Some (k, g') -> g' <= g) ->
  firstMaximal (obs ++ [(s', gi')]) k show gi g.
Proof.
  intros (pre & post & -> & Hobs & Hpre & Hpost) Hnew.
  exists pre, (post ++ [(s', gi')]).
  split; [now rewrite <- app_assoc|]. split; [assumption|].
  split; [assumption|].
  intros s0 gi0 g0 Hin Hg0. apply in_app_or in Hin.
  destruct Hin as [Hin|[Heq|[]]]; [eauto|].
  injection Heq as <- <-. auto.
Qed.

Lemma firstMaximal_snoc_new obs k show gi g :
  observed gi = Some (k, g) ->
  (forall s gi' g', In (s, gi') obs -> observed gi' = Some (k, g') -> g' < g) ->
  firstMaximal (obs ++ [(show, gi)]) k show gi g.
Proof.
  intros Hobs Hlt. exists obs, []. repeat split; auto.
  intros s gi' g' [].
Qed.

Lemma observedKeys_snoc obs s gi :
  observedKeys (obs ++ [(s, gi)])
  = observedKeys obs ++ match observed gi with
                        | Some (k, _) => [k]
                        | None => []
                        end.
Proof.
  unfold observedKeys. rewrite flat_map_app. simpl. now rewrite app_nil_r.
Qed.

(** ** The fold keeps [retains] *)

Lemma entryFor_snoc_other obs k stored s gi :
  entryFor obs k stored ->
  (forall g, observed gi <> Some (k, g)) ->
  entryFor (obs ++ [(s, gi)]) k stored.
Proof.
  intros H Hother. destruct stored as [e|]; simpl in *.
  - destruct H as (show & gi0 & name & Hfm & Hname & Hmk).
    exists show, gi0, name. repeat split; auto.
    apply firstMaximal_snoc_keep; [assumption|].
    intros g' Hg'. now apply Hother in Hg'.
  - intros s0 gi0 g Hin. apply in_app_or in Hin.
    destruct Hin as [Hin|[Heq|[]]]; [eauto|].
    injection Heq as <- <-. apply Hother.
Qed.

Lemma entryFor_snoc_new obs k stored show gi name e :
  entryFor obs k stored ->
  observed gi = Some (k, gap e) ->
  getProp gi "songName" = Ok name ->
  makeEntry show gi name (gap e) = Ok e ->
  match stored with Some existing => gap e > gap existing | None => True end ->
  entryFor (obs ++ [(show, gi)]) k (Some e).
Proof.
  intros H Hobs Hname Hmk Hgt. simpl.
  exists show, gi, name. repeat split; auto.
  apply firstMaximal_snoc_new; [assumption|].
  intros s gi' g' Hin Hg'. destruct stored as [existing|]; simpl in H.
  - destruct H as (show0 & gi0 & name0 & Hfm & _).
    pose proof (firstMaximal_bound _ _ _ _ _ Hfm _ _ _ Hin Hg'). lia.
  - exfalso. eapply H; eauto.
Qed.

Lemma entryFor_snoc_keep obs k existing s gi n :
  entryFor obs k (Some existing) ->
  observed gi = Some (k, n) ->
  n <= gap existing ->
  entryFor (obs ++ [(s, gi)]) k (Some existing).
Proof.
  simpl. intros (show0 & gi0 & name0 & Hfm & Hname & Hmk) Hobs Hle.
  exists show0, gi0, name0. repeat split; auto.
  apply firstMaximal_snoc_keep; [assumption|].
  intros g' Hg'. rewrite Hobs in Hg'. injection Hg' as <-. assumption.
Qed.

Lemma processGapInfo_retains obs show gi m m' :
  retains obs m ->
  processGapInfo show m gi = Ok m' ->
  retains (obs ++ [(show, gi)]) m'.
Proof.
  intros [Hkeys Hent] Hrun.
  destruct (processGapInfo_cases _ _ _ _ Hrun)
    as [[Hnone ->] | (k & n & name & Hobs & Hname & Hcase)].
  - split.
    + rewrite observedKeys_snoc, Hnone, app_nil_r. assumption.
    + intros k. apply entryFor_snoc_other; [apply Hent|].
      intros g. rewrite Hnone. discriminate.
  - assert (Hother : forall k0, k0 <> k ->
                       forall g, observed gi <> Some (k0, g)).
    { intros k0 Hne g. rewrite Hobs. intros Heq. injection Heq as -> _.
      now apply Hne. }
    assert (Hset : forall e, makeEntry show gi name n = Ok e ->
                     match mapGet k m with
                     | Some existing => gap e > gap existing
                     | None => True
                     end ->
                     retains (obs ++ [(show, gi)]) (mapSet k e m)).
    { intros e Hmk Hgt. pose proof (makeEntry_gap _ _ _ _ _ Hmk) as Hg.
      subst n. split.
      - rewrite observedKeys_snoc, Hobs, firstOccurrences_snoc, mapSet_keys.
        now rewrite Hkeys.
      - intros k0. destruct (String.eqb_spec k0 k) as [->|Hne].
        + rewrite mapGet_mapSet_eq.
          eapply entryFor_snoc_new; eauto.
        + rewrite mapGet_mapSet_neq by assumption.
          apply entryFor_snoc_other; auto. }
    specialize (Hent k) as Hk.
    destruct (mapGet k m) as [existing|] eqn:Eget.
    + destruct (n >? gap existing) eqn:Egt.
      * destruct Hcase as (e & Hmk & ->). apply Hset; [assumption|].
        rewrite (makeEntry_gap _ _ _ _ _ Hmk).
        apply Z.gtb_lt in Egt. lia.
      * subst m'. split.
        -- rewrite observedKeys_snoc, Hobs, firstOccurrences_snoc, <- Hkeys.
           unfold addKey. now rewrite mapGet_keys, Eget.
        -- intros k0. destruct (String.eqb_spec k0 k) as [->|Hne].
           ++ rewrite Eget. eapply entryFor_snoc_keep; eauto.
              rewrite Z.gtb_ltb in Egt. apply Z.ltb_ge in Egt. assumption.
           ++ apply entryFor_snoc_other; auto.
    + destruct Hcase as (e & Hmk & ->). now apply Hset.
Qed.

Lemma forEachM_processGapInfo_retains show gis : forall obs m m',
  retains obs m ->
  forEachM (processGapInfo show) gis m = Ok m' ->
  retains (obs ++ map (pair show) gis) m'.
Proof.
  induction gis as [|gi gis IH]; simpl; intros obs m m' Hret Hrun.
  - injection Hrun as <-. now rewrite app_nil_r.
  - apply bind_Ok_inv in Hrun. destruct Hrun as [m1 [Hstep Hrun]].
    change (obs ++ (show, gi) :: map (pair show) gis)
      with (obs ++ [(show, gi)] ++ map (pair show) gis).
    rewrite app_assoc. eapply IH; [|eassumption].
    eapply processGapInfo_retains; eassumption.
Qed.

Lemma processShow_retains obs show m m' :
  retains obs m ->
  processShow m show = Ok m' ->
  retains (obs ++ showObservations show) m'.
Proof.
  unfold processShow, showObservations. intros Hret Hrun.
  apply bind_Ok_inv in Hrun. destruct Hrun as [d [_ Hrun]].
  apply bind_Ok_inv in Hrun. destruct Hrun as [gaps [Hgaps Hrun]].
  rewrite Hgaps.
  destruct gaps;
    try (injection Hrun as <-; now rewrite app_nil_r).
  eapply forEachM_processGapInfo_retains; eassumption.
Qed.

Lemma forEachM_processShow_retains shows : forall obs m m',
  retains obs m ->
  forEachM processShow shows m = Ok m' ->
  retains (obs ++ observations shows) m'.
Proof.
  induction shows as [|show shows IH]; simpl; intros obs m m' Hret Hrun.
  - injection Hrun as <-. now rewrite app_nil_r.
  - apply bind_Ok_inv in Hrun. destruct Hrun as [m1 [Hstep Hrun]].
    rewrite app_assoc. eapply IH; [|eassumption].
    eapply processShow_retains; eassumption.
Qed.

Lemma collectTourSongGaps_retains shows m :
  collectTourSongGaps shows = Ok m -> retains (observations shows) m.
Proof.
  intros Hrun.
  apply (forEachM_processShow_retains shows [] [] m); [|assumption].
  split; [reflexivity|]. intros k s gi g [].
Qed.

(** ** From a returned record back to its observation *)

Lemma makeEntry_fields (show gi name : value) (n : Z) (e : RarestSong) :
  makeEntry show gi name n = Ok e ->
  exists date ven tp,
    getProp show "showDate" = Ok date /\
    getProp show "venue" = Ok ven /\
    getProp gi "timesPlayed" = Ok tp /\
    songName e = name /\
    tourDate e = date /\
    tourVenue e = orElse ven (VStr "Unknown Venue") /\
    timesPlayed e = orElse tp (VNum 100).
Proof.
  unfold makeEntry. intros H.
  apply bind_Ok_inv in H. destruct H as [lp [Hlp H]].
  apply bind_Ok_inv in H. destruct H as [date [Hdate H]].
  apply bind_Ok_inv in H. destruct H as [ven [Hven H]].
  apply bind_Ok_inv in H. destruct H as [tp [Htp H]].
  apply bind_Ok_inv in H. destruct H as [hv [Hhv H]].
  apply bind_Ok_inv in H. destruct H as [hc [Hhc H]].
  apply bind_Ok_inv in H. destruct H as [hs [Hhs H]].
  apply bind_Ok_inv in H. destruct H as [hlp [Hhlp H]].
  injection H as <-. exists date, ven, tp. simpl. repeat split; assumption.
Qed.

Lemma calculate_Ok_inv (tourShows : value) (out : list RarestSong) :
  calculateTourProgressiveRarestSongs tourShows = Ok out ->
  exists m,
    tourSongGapsOf tourShows = Ok m /\
    out = firstn 3 (sortBy byGapDesc (mapValues m)).
Proof.
  unfold calculateTourProgressiveRarestSongs. intros H.
  apply bind_Ok_inv in H. destruct H as [len [_ H]].
  destruct tourShows as [| | | | | |shows];
    try (injection H as <-; exists []; split; reflexivity).
  destruct shows as [|show shows].
  - injection H as <-. exists []. split; reflexivity.
  - apply bind_Ok_inv in H. destruct H as [m [Hm H]].
    injection H as <-. exists m. split; [exact Hm | reflexivity].
Qed.

Lemma tourSongGapsOf_retains (tourShows : value) (m : SongMap) :
  tourSongGapsOf tourShows = Ok m -> retains (observationsOf tourShows) m.
Proof.
  destruct tourShows; simpl; intros H;
    try (injection H as <-; split; [reflexivity | intros ? ? ? ? []]).
  now apply collectTourSongGaps_retains.
Qed.

Lemma retained_value_lookup (obs : list (value * value)) (m : SongMap)
  (e : RarestSong) :
  retains obs m -> In e (mapValues m) -> exists k, mapGet k m = Some e.
Proof.
  intros [Hkeys _] Hin. unfold mapValues in Hin.
  apply in_map_iff in Hin. destruct Hin as [[k e'] [Heq Hin]].
  simpl in Heq. subst e'. exists k. apply In_mapGet; [|assumption].
  rewrite Hkeys. apply firstOccurrences_NoDup.
Qed.

(** Every returned record was built from the first observation of the
    largest gap of its song. *)
Lemma output_entry_origin (tourShows : value) (out : list RarestSong)
  (e : RarestSong) :
  calculateTourProgressiveRarestSongs tourShows = Ok out ->
  In e out ->
  exists k show gi name,
    firstMaximal (observationsOf tourShows) k show gi (gap e) /\
    getProp gi "songName" = Ok name /\
    makeEntry show gi name (gap e) = Ok e.
Proof.
  intros Hrun Hin.
  destruct (calculate_Ok_inv _ _ Hrun) as (m & Hm & ->).
  apply in_firstn in Hin.
  apply (Permutation_in _ (Permutation_sym (sortBy_perm byGapDesc _))) in Hin.
  pose proof (tourSongGapsOf_retains _ _ Hm) as Hret.
  destruct (retained_value_lookup _ _ _ Hret Hin) as [k Hk].
  destruct Hret as [_ Hent]. specialize (Hent k). rewrite Hk in Hent.
  destruct Hent as (show & gi & name & H). exists k, show, gi, name. exact H.
Qed.

(** ** Replacement in one step *)

Lemma observed_Some_inv (gi : value) (k : string) (n : Z) :
  observed gi = Some (k, n) ->
  exists s,
    getProp gi "songName" = Ok (VStr s) /\
    getProp gi "gap" = Ok (VNum n) /\
    truthy (VStr s) = true /\ (n <? 0) = false /\ k = toLowerCase s.
Proof.
  unfold observed. intros H.
  destruct (getProp gi "songName") as [[| | | |s| |]|]; try discriminate.
  destruct (getProp gi "gap") as [[| | |n'| | |]|]; try discriminate.
  destruct (negb (String.eqb s "")) eqn:Es; simpl in H; [|discriminate].
  destruct (n' <? 0) eqn:En; simpl in H; [discriminate|].
  injection H as <- <-. exists s. simpl. rewrite Es. auto.
Qed.

Lemma processGapInfo_keeps (show gi : value) (m : SongMap) (k : string)
  (n : Z) (existing : RarestSong) :
  observed gi = Some (k, n) ->
  mapGet k m = Some existing ->
  n <= gap existing ->
  processGapInfo show m gi = Ok m.
Proof.
  intros Hobs Hget Hle.
  destruct (observed_Some_inv _ _ _ Hobs) as (s & Hname & Hgap & Ht & Hn & ->).
  unfold processGapInfo. rewrite Hname. cbn [bind]. rewrite Ht.
  cbn [negb]. rewrite Hgap. cbn [bind callToLowerCase]. rewrite Hn, Hget.
  rewrite Z.gtb_ltb. apply Z.ltb_ge in Hle. now rewrite Hle.
Qed.

Lemma processGapInfo_replaces_only_greater (show gi : value) (m m' : SongMap)
  (k : string) (existing e : RarestSong) :
  processGapInfo show m gi = Ok m' ->
  mapGet k m = Some existing ->
  mapGet k m' = Some e ->
  e = existing \/ (observed gi = Some (k, gap e) /\ gap e > gap existing).
Proof.
  intros Hrun Hget Hget'.
  destruct (processGapInfo_cases _ _ _ _ Hrun)
    as [[_ ->] | (k0 & n & name & Hobs & _ & Hcase)]; [left; congruence|].
  destruct (String.eqb_spec k k0) as [->|Hne].
  - rewrite Hget in Hcase. destruct (n >? gap existing) eqn:Egt.
    + destruct Hcase as (e' & Hmk & ->).
      rewrite mapGet_mapSet_eq in Hget'. injection Hget' as ->.
      rewrite (makeEntry_gap _ _ _ _ _ Hmk). apply Z.gtb_lt in Egt.
      right. split; [assumption | lia].
    + subst m'. left. congruence.
  - assert (mapGet k m' = mapGet k m) as Heq.
    { destruct (mapGet k0 m) as [ex|].
      - destruct (n >? gap ex).
        + destruct Hcase as (e' & _ & ->). now apply mapGet_mapSet_neq.
        + now subst.
      - destruct Hcase as (e' & _ & ->). now apply mapGet_mapSet_neq. }
    left. congruence.
Qed.

(** C1. For every sequence of shows on which the reducer returns and every
    song key (the lower-cased name), the map holds no entry when no valid
    observation has that key, and otherwise the entry built from the first
    observation, in input order, whose gap is the largest one observed for
    that key: every earlier observation of the key has a strictly smaller
    gap and every later one a gap that is not larger.  In one step a stored
    entry changes only when the new gap is strictly greater, and an
    observation whose gap is equal or smaller leaves the map as it was. *)
Theorem rarest_retains_first_maximal_gap (shows : list value) (m : SongMap) :
  collectTourSongGaps shows = Ok m ->
  (forall k, entryFor (observations shows) k (mapGet k m)) /\
  (forall show gi m0 m1 k existing e,
      processGapInfo show m0 gi = Ok m1 ->
      mapGet k m0 = Some existing ->
      mapGet k m1 = Some e ->
      e = existing \/
      (observed gi = Some (k, gap e) /\ gap e > gap existing)) /\
  (forall show gi m0 k n existing,
      observed gi = Some (k, n) ->
      mapGet k m0 = Some existing ->
      n <= gap existing ->
      processGapInfo show m0 gi = Ok m0).
Proof.
  intros Hrun. split; [|split].
  - apply (collectTourSongGaps_retains _ _ Hrun).
  - intros. eapply processGapInfo_replaces_only_greater; eassumption.
  - intros. eapply processGapInfo_keeps; eassumption.
Qed.

Lemma rarest_retains_first_maximal_gap_witness :
  exists m,
    collectTourSongGaps sandShows = Ok m /\
    forall k, entryFor (observations sandShows) k (mapGet k m).
Proof.
  eexists. split; [vm_compute; reflexivity|].
  apply (rarest_retains_first_maximal_gap sandShows _ eq_refl).
Defined.

Lemma retained_entry_origin (tourShows : value) (m : SongMap) (k : string)
  (e : RarestSong) :
  tourSongGapsOf tourShows = Ok m ->
  mapGet k m = Some e ->
  exists show gi,
    firstMaximal (observationsOf tourShows) k show gi (gap e) /\
    songKey e = Some k /\
    getProp gi "songName" = Ok (songName e) /\
    makeEntry show gi (songName e) (gap e) = Ok e.
Proof.
  intros Hm Hget.
  destruct (tourSongGapsOf_retains _ _ Hm) as [_ Hent].
  specialize (Hent k). rewrite Hget in Hent.
  destruct Hent as (show & gi & name & Hfm & Hname & Hmk).
  destruct (makeEntry_fields _ _ _ _ _ Hmk)
    as (_ & _ & _ & _ & _ & _ & Hsong & _).
  subst name. exists show, gi. repeat split; try assumption.
  destruct Hfm as (_ & _ & _ & Hobs & _).
  destruct (observed_Some_inv _ _ _ Hobs) as (s & Hs & _ & _ & _ & ->).
  unfold songKey. assert (songName e = VStr s) as -> by congruence.
  reflexivity.
Qed.

Lemma output_entry_retained (tourShows : value) (out : list RarestSong)
  (e : RarestSong) :
  calculateTourProgressiveRarestSongs tourShows = Ok out ->
  In e out ->
  exists m k, tourSongGapsOf tourShows = Ok m /\ mapGet k m = Some e.
Proof.
  intros Hrun Hin. destruct (calculate_Ok_inv _ _ Hrun) as (m & Hm & ->).
  apply in_firstn in Hin.
  apply (Permutation_in _ (Permutation_sym (sortBy_perm byGapDesc _))) in Hin.
  destruct (retained_value_lookup _ _ _ (tourSongGapsOf_retains _ _ Hm) Hin)
    as [k Hk].
  eauto.
Qed.

Lemma makeEntry_ignores_embedded_context (show gi name date venue : value)
  (n : Z) :
  makeEntry show (withEmbeddedContext date venue gi) name n
  = makeEntry show gi name n.
Proof. destruct gi; reflexivity. Qed.

(** C2, as amended.  Every record the reducer retains, under key [k], is
    the object built from the first observation of the largest gap of the
    song [k] and from the show that contains that observation: it carries
    the [showDate] of that show, and that show's [venue] when the venue is
    truthy; a falsy venue (absent, [null], or the empty string) is stored
    as "Unknown Venue".  Whatever date and venue the observation itself
    carries, the record is the same.  Every record the reducer returns is
    one it retains. *)
Theorem rarest_attribution_from_show (tourShows : value) (m : SongMap) :
  tourSongGapsOf tourShows = Ok m ->
  (forall k e,
      mapGet k m = Some e ->
      exists show gi ven,
        firstMaximal (observationsOf tourShows) k show gi (gap e) /\
        songKey e = Some k /\
        getProp gi "songName" = Ok (songName e) /\
        makeEntry show gi (songName e) (gap e) = Ok e /\
        getProp show "showDate" = Ok (tourDate e) /\
        getProp show "venue" = Ok ven /\
        tourVenue e = (if truthy ven then ven else VStr "Unknown Venue") /\
        forall date venue,
          makeEntry show (withEmbeddedContext date venue gi)
            (songName e) (gap e) = Ok e) /\
  (forall out e,
      calculateTourProgressiveRarestSongs tourShows = Ok out ->
      In e out ->
      exists k, mapGet k m = Some e).
Proof.
  intros Hm. split.
  - intros k e Hget.
    destruct (retained_entry_origin _ _ _ _ Hm Hget)
      as (show & gi & Hfm & Hkey & Hname & Hmk).
    destruct (makeEntry_fields _ _ _ _ _ Hmk)
      as (date & ven & tp & Hdate & Hven & _ & _ & Hd & Hv & _).
    exists show, gi, ven. subst date.
    repeat split; try assumption.
    intros date venue. now rewrite makeEntry_ignores_embedded_context.
  - intros out e Hrun Hin.
    destruct (output_entry_retained _ _ _ Hrun Hin) as (m' & k & Hm' & Hk).
    assert (m' = m) as -> by congruence. eauto.
Qed.

Lemma rarest_attribution_from_show_witness :
  exists m,
    tourSongGapsOf summer2025 = Ok m /\
    forall k e,
      mapGet k m = Some e ->
      exists show gi ven,
        firstMaximal (observationsOf summer2025) k show gi (gap e) /\
        songKey e = Some k /\
        getProp gi "songName" = Ok (songName e) /\
        makeEntry show gi (songName e) (gap e) = Ok e /\
        getProp show "showDate" = Ok (tourDate e) /\
        getProp show "venue" = Ok ven /\
        tourVenue e = (if truthy ven then ven else VStr "Unknown Venue") /\
        forall date venue,
          makeEntry show (withEmbeddedContext date venue gi)
            (songName e) (gap e) = Ok e.
Proof.
  eexists. split; [vm_compute; reflexivity|].
  apply (proj1 (rarest_attribution_from_show summer2025 _ eq_refl)).
Defined.

(** C2, as stated, fails: the venue of [emptyVenueShow] is present (the
    empty string), yet the record retained from it carries "Unknown Venue",
    which is not the venue of the show. *)
Lemma rarest_empty_venue_replaced :
  exists e,
    calculateTourProgressiveRarestSongs (VArr [emptyVenueShow]) = Ok [e] /\
    getProp emptyVenueShow "venue" = Ok (VStr "") /\
    tourVenue e = VStr "Unknown Venue" /\
    tourVenue e <> VStr "".
Proof.
  eexists. split; [vm_compute; reflexivity|].
  split; [reflexivity|]. split; [reflexivity|]. discriminate.
Qed.

(** C3. Whenever the reducer returns, its output is the first three
    records (all of them when there are fewer) of the retained entries
    arranged by non-increasing gap, entries of equal gap in the order the
    map holds them, which is the order in which their keys were first
    observed. *)
Theorem rarest_output_sorted_stable_top3 (tourShows : value)
  (out : list RarestSong) :
  calculateTourProgressiveRarestSongs tourShows = Ok out ->
  exists m sorted,
    tourSongGapsOf tourShows = Ok m /\
    map fst m = firstOccurrences (observedKeys (observationsOf tourShows)) /\
    Permutation sorted (mapValues m) /\
    StronglySorted (keyGe gap) sorted /\
    (forall g, filter (fun e => gap e =? g) sorted
               = filter (fun e => gap e =? g) (mapValues m)) /\
    out = firstn 3 sorted /\
    (List.length out <= 3)%nat /\
    StronglySorted (keyGe gap) out.
Proof.
  intros Hrun.
  destruct (calculate_Ok_inv _ _ Hrun) as (m & Hm & ->).
  assert (Hcmp : forall a b, byGapDesc a b = gap b - gap a) by reflexivity.
  exists m, (sortBy byGapDesc (mapValues m)).
  split; [assumption|].
  split; [apply (tourSongGapsOf_retains _ _ Hm)|].
  split; [apply Permutation_sym, sortBy_perm|].
  split; [now apply sortBy_sorted|].
  split; [intros g; now apply sortBy_stable|].
  split; [reflexivity|].
  split; [apply firstn_le_length|].
  apply firstn_sorted. now apply sortBy_sorted.
Qed.

Lemma rarest_output_sorted_stable_top3_witness :
  exists out m sorted,
    calculateTourProgressiveRarestSongs summer2025 = Ok out /\
    tourSongGapsOf summer2025 = Ok m /\
    Permutation sorted (mapValues m) /\
    StronglySorted (keyGe gap) sorted /\
    out = firstn 3 sorted.
Proof.
  destruct (rarest_output_sorted_stable_top3 summer2025 _ eq_refl)
    as (m & sorted & Hm & _ & Hperm & Hsorted & _ & Hout & _).
  eexists. exists m, sorted.
  split; [vm_compute; reflexivity|]. repeat split; assumption.
Defined.

(** C5. On the three shows of Summer Tour 2025 the reducer returns, in
    this order, On Your Way Down (522, United Center, 2025-07-18), Paul and
    Silas (323, Bethel Woods Center for the Arts, 2025-06-24) and Devotion
    To A Dream (322, Pine Knob Music Theatre, 2025-07-11). *)
Theorem rarest_summer2025 :
  exists out,
    calculateTourProgressiveRarestSongs summer2025 = Ok out /\
    map summary out =
      [(VStr "On Your Way Down", 522, VStr "United Center",
        VStr "2025-07-18");
       (VStr "Paul and Silas", 323,
        VStr "Bethel Woods Center for the Arts", VStr "2025-06-24");
       (VStr "Devotion To A Dream", 322, VStr "Pine Knob Music Theatre",
        VStr "2025-07-11")].
Proof. eexists. split; vm_compute; reflexivity. Qed.

(** C10. In every record the reducer returns, [timesPlayed] is what
    [gapInfo.timesPlayed || 100] gives on the observation the record was
    built from, the first observation of the largest gap of its song: it is
    100 whenever the [timesPlayed] of that observation is falsy, when it is
    absent and also when it is the number 0. *)
Theorem rarest_timesPlayed_falsy_is_100 (tourShows : value)
  (out : list RarestSong) (e : RarestSong) :
  calculateTourProgressiveRarestSongs tourShows = Ok out ->
  In e out ->
  exists k show gi tp,
    firstMaximal (observationsOf tourShows) k show gi (gap e) /\
    songKey e = Some k /\
    getProp gi "songName" = Ok (songName e) /\
    makeEntry show gi (songName e) (gap e) = Ok e /\
    getProp gi "timesPlayed" = Ok tp /\
    timesPlayed e = (if truthy tp then tp else VNum 100) /\
    (truthy tp = false -> timesPlayed e = VNum 100) /\
    (tp = VNum 0 -> timesPlayed e = VNum 100) /\
    (tp = VUndefined -> timesPlayed e = VNum 100).
Proof.
  intros Hrun Hin.
  destruct (output_entry_retained _ _ _ Hrun Hin) as (m & k & Hm & Hk).
  destruct (retained_entry_origin _ _ _ _ Hm Hk)
    as (show & gi & Hfm & Hkey & Hname & Hmk).
  destruct (makeEntry_fields _ _ _ _ _ Hmk)
    as (date & ven & tp & _ & _ & Htp & _ & _ & _ & Ht).
  exists k, show, gi, tp.
  assert (Hfalsy : truthy tp = false -> timesPlayed e = VNum 100).
  { intros Hf. rewrite Ht. unfold orElse. now rewrite Hf. }
  repeat split; try assumption; try (intros ->; now apply Hfalsy).
Qed.

Lemma rarest_timesPlayed_falsy_is_100_witness :
  exists out e,
    calculateTourProgressiveRarestSongs (VArr [emptyVenueShow]) = Ok out /\
    In e out /\
    exists k show gi tp,
      firstMaximal (observationsOf (VArr [emptyVenueShow])) k show gi (gap e)
      /\ songKey e = Some k /\
      getProp gi "songName" = Ok (songName e) /\
      makeEntry show gi (songName e) (gap e) = Ok e /\
      getProp gi "timesPlayed" = Ok tp /\
      timesPlayed e = (if truthy tp then tp else VNum 100) /\
      (truthy tp = false -> timesPlayed e = VNum 100) /\
      (tp = VNum 0 -> timesPlayed e = VNum 100) /\
      (tp = VUndefined -> timesPlayed e = VNum 100).
Proof.
  eexists. eexists. split; [vm_compute; reflexivity|].
  split; [left; reflexivity|].
  eapply rarest_timesPlayed_falsy_is_100; [vm_compute; reflexivity|].
  left; reflexivity.
Defined.

(** ** The longest-songs selector *)




(** ** When the reducer raises *)

Lemma getProp_other (v : value) (k k' : string) (x : value) :
  getProp v k = Ok x -> exists y, getProp v k' = Ok y.
Proof. destruct v; simpl; intros H; try discriminate; eauto. Qed.

Lemma getProp_fails (v : value) (k k' : string) :
  getProp v k = TypeError -> getProp v k' = TypeError.
Proof. destruct v; simpl; intros H; try discriminate; reflexivity. Qed.

Lemma makeEntry_total (show gi name : value) (n : Z) (x y : value) :
  getProp show "songGaps" = Ok x ->
  getProp gi "songName" = Ok y ->
  exists e, makeEntry show gi name n = Ok e.
Proof.
  intros Hs Hg. unfold makeEntry.
  destruct (getProp_other _ _ "lastPlayed" _ Hg) as [? ->].
  destruct (getProp_other _ _ "showDate" _ Hs) as [? ->].
  destruct (getProp_other _ _ "venue" _ Hs) as [? ->].
  destruct (getProp_other _ _ "timesPlayed" _ Hg) as [? ->].
  destruct (getProp_other _ _ "historicalVenue" _ Hg) as [? ->].
  destruct (getProp_other _ _ "historicalCity" _ Hg) as [? ->].
  destruct (getProp_other _ _ "historicalState" _ Hg) as [? ->].
  destruct (getProp_other _ _ "historicalLastPlayed" _ Hg) as [? ->].
  simpl. eauto.
Qed.

Lemma processGapInfo_returns (show gi x : value) (m : SongMap) :
  getProp show "songGaps" = Ok x ->
  gapInfoOk gi = true ->
  exists m', processGapInfo show m gi = Ok m'.
Proof.
  intros Hs. unfold gapInfoOk, processGapInfo.
  destruct (getProp gi "songName") as [name|] eqn:Hname; [|discriminate].
  cbn [bind]. destruct (truthy name); cbn [negb]; [|eauto].
  destruct (getProp_other _ _ "gap" _ Hname) as [g Hg]. rewrite Hg.
  cbn [bind]. destruct g; eauto.
  destruct (n <? 0); [eauto|]. simpl. intros Hstr.
  destruct name; try discriminate. cbn [callToLowerCase bind].
  destruct (makeEntry_total show gi (VStr s) n _ _ Hs Hname) as [e He].
  rewrite He. cbn [bind].
  destruct (mapGet (toLowerCase s) m) as [ex|]; [|eauto].
  destruct (n >? gap ex); eauto.
Qed.

Lemma processGapInfo_raises (show gi : value) (m : SongMap) :
  gapInfoOk gi = false -> processGapInfo show m gi = TypeError.
Proof.
  unfold gapInfoOk, processGapInfo.
  destruct (getProp gi "songName") as [name|] eqn:Hname; [|reflexivity].
  cbn [bind]. destruct (truthy name); cbn [negb]; [|discriminate].
  destruct (getProp gi "gap") as [g|]; [|discriminate].
  cbn [bind]. destruct g; try discriminate.
  destruct (n <? 0); [discriminate|]. simpl.
  destruct name; try discriminate; reflexivity.
Qed.

Lemma forEachM_processGapInfo_returns (show x : value) (gis : list value) :
  getProp show "songGaps" = Ok x ->
  forall m,
    if forallb gapInfoOk gis
    then exists m', forEachM (processGapInfo show) gis m = Ok m'
    else forEachM (processGapInfo show) gis m = TypeError.
Proof.
  intros Hs. induction gis as [|gi gis IH]; simpl; intros m; [eauto|].
  destruct (gapInfoOk gi) eqn:Egi; simpl.
  - destruct (processGapInfo_returns show gi x m Hs Egi) as [m1 ->].
    cbn [bind]. apply IH.
  - now rewrite processGapInfo_raises.
Qed.

Lemma processShow_returns (show : value) (m : SongMap) :
  if showOk show
  then exists m', processShow m show = Ok m'
  else processShow m show = TypeError.
Proof.
  unfold showOk, processShow.
  destruct (getProp show "songGaps") as [gaps|] eqn:Hgaps.
  - destruct (getProp_other _ _ "showDate" _ Hgaps) as [d ->]. cbn [bind].
    destruct gaps; eauto.
    apply (forEachM_processGapInfo_returns show _ elems Hgaps).
  - now rewrite (getProp_fails _ _ "showDate" Hgaps).
Qed.

Lemma collectTourSongGaps_returns (shows : list value) : forall m,
  if forallb showOk shows
  then exists m', forEachM processShow shows m = Ok m'
  else forEachM processShow shows m = TypeError.
Proof.
  induction shows as [|show shows IH]; simpl; intros m; [eauto|].
  pose proof (processShow_returns show m) as Hshow.
  destruct (showOk show); simpl.
  - destruct Hshow as [m1 ->]. cbn [bind]. apply IH.
  - now rewrite Hshow.
Qed.

(** The reducer returns exactly on the inputs accepted by [inputOk], and
    raises on every other one. *)
Lemma calculateTourProgressiveRarestSongs_returns (tourShows : value) :
  if inputOk tourShows
  then exists out, calculateTourProgressiveRarestSongs tourShows = Ok out
  else calculateTourProgressiveRarestSongs tourShows = TypeError.
Proof.
  destruct tourShows as [| | | | | |shows];
    try solve [simpl; eauto | unfold calculateTourProgressiveRarestSongs;
                              simpl; eauto].
  unfold calculateTourProgressiveRarestSongs. cbn [getProp bind].
  destruct shows as [|show shows]; [simpl; eauto|].
  pose proof (collectTourSongGaps_returns (show :: shows) []) as H.
  unfold collectTourSongGaps. cbn [inputOk].
  destruct (forallb showOk (show :: shows)).
  - destruct H as [m ->]. cbn [bind]. eauto.
  - now rewrite H.
Qed.

(** The selector returns on every value but [null] and [undefined]. *)
Lemma calculateLongestSongs_returns (trackDurations : value) :
  match trackDurations with
  | VUndefined | VNull => calculateLongestSongs trackDurations = TypeError
  | _ => exists out, calculateLongestSongs trackDurations = Ok out
  end.
Proof.
  destruct trackDurations as [| | | | | |tracks];
    try solve [simpl; eauto | unfold calculateLongestSongs; simpl; eauto].
  destruct tracks; unfold calculateLongestSongs; simpl; eauto.
Qed.

(** C6, at the failing input.  The observation names its song by the
    number 555 and has the valid gap 7: the validation lets it through and
    the call of [toLowerCase] raises, so the reducer does not return.  The
    selector, and the reducer as well, raise on [null], where the read of
    [length] comes before the test for an array. *)
Theorem rarest_raises_on_numeric_songName :
  inputOk numericNameShows = false /\
  calculateTourProgressiveRarestSongs numericNameShows = TypeError /\
  calculateTourProgressiveRarestSongs VNull = TypeError /\
  calculateLongestSongs VNull = TypeError.
Proof. repeat split; reflexivity. Qed.

(** ** The store *)

Lemma load_lt (a : nat) (h : heap) (l : list value) :
  load a h = Some l -> (a < List.length h)%nat.
Proof. intros H. apply nth_error_Some. unfold load in H. congruence. Qed.

Lemma load_fresh (h : heap) : load (List.length h) h = None.
Proof. apply nth_error_None. lia. Qed.

Lemma load_alloc_new (l : list value) (h : heap) :
  load (fst (alloc l h)) (snd (alloc l h)) = Some l.
Proof.
  unfold alloc, load. simpl. rewrite nth_error_app2 by lia.
  now rewrite Nat.sub_diag.
Qed.

Lemma preserved_refl (h : heap) : preserved h h.
Proof. intros a l H. exact H. Qed.

Lemma preserved_trans (h1 h2 h3 : heap) :
  preserved h1 h2 -> preserved h2 h3 -> preserved h1 h3.
Proof. intros H12 H23 a l H. auto. Qed.

Lemma preserved_alloc (l : list value) (h : heap) :
  preserved h (snd (alloc l h)).
Proof.
  intros a c H. unfold alloc, load in *. simpl.
  rewrite nth_error_app1; [assumption|].
  apply nth_error_Some. congruence.
Qed.

Lemma length_store (a : nat) (l : list value) (h : heap) :
  List.length (store a l h) = List.length h.
Proof.
  revert a. induction h as [|x h IH]; intros [|a]; simpl; auto.
Qed.

Lemma load_store_same (a : nat) (l : list value) (h : heap) :
  (a < List.length h)%nat -> load a (store a l h) = Some l.
Proof.
  revert a. induction h as [|x h IH]; intros [|a]; simpl; intros H;
    try lia; [reflexivity|].
  apply IH. lia.
Qed.

Lemma load_store_other (a b : nat) (l : list value) (h : heap) :
  a <> b -> load b (store a l h) = load b h.
Proof.
  revert a b. induction h as [|x h IH]; intros [|a] [|b] Hne; simpl;
    try reflexivity; try congruence.
  apply IH. congruence.
Qed.

(** Writing an array leaves every other array as it was. *)
Lemma preserved_store_other (a : nat) (l : list value) (h0 h : heap) :
  preserved h0 h -> load a h0 = None -> preserved h0 (store a l h).
Proof.
  intros Hp Hnone b c Hb.
  rewrite load_store_other; [now apply Hp|].
  intros ->. congruence.
Qed.

Lemma contents_load (a : nat) (h : heap) (l : list value) :
  load a h = Some l -> contents a h = l.
Proof. unfold contents. now intros ->. Qed.

(** ** Sorting objects and sorting records *)

Lemma insertBy_map {A B : Type} (f : A -> B) (cmpA : A -> A -> Z)
  (cmpB : B -> B -> Z) (x : A) (l : list A) :
  (forall a b, cmpB (f a) (f b) = cmpA a b) ->
  insertBy cmpB (f x) (map f l) = map f (insertBy cmpA x l).
Proof.
  intros Hc. induction l as [|y l IH]; simpl; [reflexivity|].
  rewrite Hc. destruct (cmpA x y <=? 0); simpl; [reflexivity|].
  now rewrite IH.
Qed.

Lemma sortBy_map {A B : Type} (f : A -> B) (cmpA : A -> A -> Z)
  (cmpB : B -> B -> Z) (l : list A) :
  (forall a b, cmpB (f a) (f b) = cmpA a b) ->
  sortBy cmpB (map f l) = map f (sortBy cmpA l).
Proof.
  intros Hc. induction l as [|x l IH]; simpl; [reflexivity|].
  rewrite IH. now apply insertBy_map.
Qed.

Lemma byGapDescObj_songObject (a b : RarestSong) :
  byGapDescObj (songObject a) (songObject b) = byGapDesc a b.
Proof. reflexivity. Qed.

(** ** The two functions on the store *)

Lemma contents_alloc_new (l : list value) (h : heap) :
  contents (List.length h) (h ++ [l]) = l.
Proof. apply contents_load. apply (load_alloc_new l h). Qed.

Lemma load_above (a : nat) (h : heap) :
  (List.length h <= a)%nat -> load a h = None.
Proof. intros H. now apply nth_error_None. Qed.

(** The selector on the store: it returns a new array that holds what the
    function returns on the contents, and leaves every array of the store
    as it was. *)
Lemma calculateLongestSongsRef_run (a : nat) (h : heap) (tracks : list value) :
  load a h = Some tracks ->
  exists out h' res,
    calculateLongestSongsRef a h = Ok (out, h') /\
    calculateLongestSongs (VArr tracks) = Ok res /\
    load out h' = Some res /\
    load out h = None /\
    preserved h h'.
Proof.
  intros Hload. unfold calculateLongestSongsRef. rewrite Hload.
  destruct tracks as [|t ts].
  - exists (List.length h), (h ++ [[]]), []. repeat split.
    + apply (load_alloc_new [] h).
    + apply load_fresh.
    + apply (preserved_alloc [] h).
  - unfold arrFilter, arrSlice0, arrSort, alloc.
    rewrite (contents_load _ _ _ Hload), contents_alloc_new.
    set (valid := filter validTrack (t :: ts)).
    set (h1 := h ++ [valid]).
    set (h2 := store (List.length h) (sortBy byDurationDesc valid) h1).
    assert (Hlen1 : List.length h1 = S (List.length h)).
    { unfold h1. rewrite length_app. simpl. lia. }
    assert (Hsorted : load (List.length h) h2
                      = Some (sortBy byDurationDesc valid)).
    { apply load_store_same. lia. }
    rewrite (contents_load _ _ _ Hsorted).
    eexists _, _, _. split; [reflexivity|].
    split; [reflexivity|]. split; [|split].
    + apply (load_alloc_new _ h2).
    + apply load_above. unfold h2. rewrite length_store. lia.
    + eapply preserved_trans; [|apply (preserved_alloc _ h2)].
      apply preserved_store_other;
        [apply (preserved_alloc valid h) | apply load_fresh].
Qed.

Lemma preserved_length (h h' : heap) :
  preserved h h' -> (List.length h <= List.length h')%nat.
Proof.
  intros Hp. destruct (List.length h) as [|n] eqn:E; [lia|].
  destruct (load n h) as [l|] eqn:Hl.
  - apply Hp in Hl. apply load_lt in Hl. lia.
  - apply nth_error_None in Hl. lia.
Qed.

(** The reducer on the store: it raises when the function raises on the
    contents; otherwise it returns a new array that holds the records the
    function returns, and leaves every array of the store as it was. *)
Lemma calculateTourProgressiveRarestSongsRef_run (a : nat) (h : heap)
  (shows : list value) :
  load a h = Some shows ->
  match calculateTourProgressiveRarestSongs (VArr shows) with
  | TypeError => calculateTourProgressiveRarestSongsRef a h = TypeError
  | Ok res =>
      exists out h',
        calculateTourProgressiveRarestSongsRef a h = Ok (out, h') /\
        load out h' = Some (map songObject res) /\
        load out h = None /\
        preserved h h'
  end.
Proof.
  intros Hload.
  unfold calculateTourProgressiveRarestSongsRef,
    calculateTourProgressiveRarestSongs.
  rewrite Hload. cbn [getProp bind].
  destruct shows as [|show shows].
  - exists (List.length h), (h ++ [[]]). repeat split.
    + apply (load_alloc_new [] h).
    + apply load_fresh.
    + apply (preserved_alloc [] h).
  - destruct (collectTourSongGaps (show :: shows)) as [m|];
      cbn [bind]; [|reflexivity].
    unfold arrFilter, arrSlice0, arrSort, alloc, slice0.
    set (vals := map songObject (mapValues m)).
    set (h1 := h ++ [vals]).
    assert (Hc1 : contents (List.length h) h1 = vals)
      by apply contents_alloc_new.
    rewrite Hc1.
    set (high := filter (fun song => gapOf song >? 200) vals).
    set (h2 := h1 ++ [high]).
    assert (Hc2 : contents (List.length h1) h2 = high)
      by apply contents_alloc_new.
    rewrite Hc2.
    set (h3 := store (List.length h1) (sortBy byGapDescObj high) h2).
    cbn [snd].
    set (h4 := match contents (List.length h1) h3 with
               | [] => h3
               | _ :: _ => h3 ++ [firstn 10 (contents (List.length h1) h3)]
               end).
    assert (Hlen1 : List.length h1 = S (List.length h)).
    { unfold h1. rewrite length_app. simpl. lia. }
    assert (Hp1 : preserved h h1) by apply (preserved_alloc vals h).
    assert (Hv1 : load (List.length h) h1 = Some vals)
      by apply (load_alloc_new vals h).
    assert (Hp3 : preserved h1 h3).
    { apply preserved_store_other;
        [apply (preserved_alloc high h1) | apply load_fresh]. }
    assert (Hp4 : preserved h3 h4).
    { unfold h4. destruct (contents (List.length h1) h3);
        [apply preserved_refl | apply (preserved_alloc _ h3)]. }
    assert (Hv4 : load (List.length h) h4 = Some vals) by auto.
    rewrite (contents_load _ _ _ Hv4).
    set (h5 := store (List.length h) (sortBy byGapDescObj vals) h4).
    assert (Hv5 : load (List.length h) h5
                  = Some (sortBy byGapDescObj vals)).
    { apply load_store_same. now apply load_lt in Hv4. }
    rewrite (contents_load _ _ _ Hv5).
    eexists _, _. split; [reflexivity|]. split; [|split].
    + transitivity (Some (firstn 3 (sortBy byGapDescObj vals)));
        [apply (load_alloc_new _ h5)|].
      f_equal. unfold vals.
      rewrite (sortBy_map songObject byGapDesc byGapDescObj)
        by apply byGapDescObj_songObject.
      now rewrite firstn_map.
    + apply load_above. unfold h5. rewrite length_store.
      apply load_lt in Hv4. simpl. lia.
    + eapply preserved_trans; [|apply (preserved_alloc _ h5)].
      apply preserved_store_other; [|apply load_fresh].
      eapply preserved_trans; [exact Hp1|].
      eapply preserved_trans; [exact Hp3 | exact Hp4].
Qed.

(** C9. Run on a store of arrays, neither function writes to its input:
    after the call the input array holds the same elements in the same
    order, and so does every other array that existed before; the result is
    an array that did not exist before the call.  The selector always
    returns; the reducer returns whenever it does not raise. *)
Theorem selectors_leave_input_unchanged (h : heap) (a : nat)
  (input : list value) :
  load a h = Some input ->
  (exists out h',
      calculateLongestSongsRef a h = Ok (out, h') /\
      load a h' = Some input /\ preserved h h' /\
      load out h = None /\ out <> a) /\
  (forall res,
      calculateTourProgressiveRarestSongs (VArr input) = Ok res ->
      exists out h', calculateTourProgressiveRarestSongsRef a h = Ok (out, h'))
  /\
  (forall out h',
      calculateTourProgressiveRarestSongsRef a h = Ok (out, h') ->
      load a h' = Some input /\ preserved h h' /\
      load out h = None /\ out <> a).
Proof.
  intros Hload. split; [|split].
  - destruct (calculateLongestSongsRef_run a h input Hload)
      as (out & h' & res & Hrun & _ & _ & Hnew & Hp).
    exists out, h'. repeat split; auto. intros ->. congruence.
  - intros res Hres.
    pose proof (calculateTourProgressiveRarestSongsRef_run a h input Hload)
      as Hrun.
    rewrite Hres in Hrun. destruct Hrun as (out & h' & Hrun & _).
    eauto.
  - intros out h' Hrun.
    pose proof (calculateTourProgressiveRarestSongsRef_run a h input Hload)
      as Hspec.
    destruct (calculateTourProgressiveRarestSongs (VArr input)) as [res|].
    + destruct Hspec as (out0 & h0 & Hrun0 & _ & Hnew & Hp).
      rewrite Hrun0 in Hrun. injection Hrun as <- <-.
      repeat split; auto. intros ->. congruence.
    + congruence.
Qed.

Lemma selectors_leave_input_unchanged_witness :
  load 0 [summer2025Shows] = Some summer2025Shows /\
  exists out h',
    calculateTourProgressiveRarestSongsRef 0 [summer2025Shows]
    = Ok (out, h') /\
    load 0 h' = Some summer2025Shows /\ out <> 0%nat.
Proof.
  split; [reflexivity|].
  destruct (selectors_leave_input_unchanged [summer2025Shows] 0
              summer2025Shows eq_refl) as (_ & _ & Hframe).
  eexists. eexists. split; [vm_compute; reflexivity|].
  destruct (Hframe _ _ eq_refl) as (Hin & _ & _ & Hne).
  split; [exact Hin | exact Hne].
Defined.

(** C7. The output of each function is determined by the contents of its
    input: two calls on arrays that hold the same elements, in any two
    stores, both raise or both return arrays that hold the same records in
    the same order; in particular a second call on the same array, made
    after the first one has returned, returns what the first returned. *)
Theorem selectors_deterministic (h1 h2 : heap) (a1 a2 : nat)
  (input : list value) :
  load a1 h1 = Some input ->
  load a2 h2 = Some input ->
  (exists o1 h1' o2 h2' res,
      calculateLongestSongsRef a1 h1 = Ok (o1, h1') /\
      calculateLongestSongsRef a2 h2 = Ok (o2, h2') /\
      load o1 h1' = Some res /\ load o2 h2' = Some res) /\
  match calculateTourProgressiveRarestSongsRef a1 h1,
        calculateTourProgressiveRarestSongsRef a2 h2 with
  | Ok (o1, h1'), Ok (o2, h2') =>
      exists res, load o1 h1' = Some res /\ load o2 h2' = Some res
  | TypeError, TypeError => True
  | _, _ => False
  end /\
  (forall o1 h1',
      calculateLongestSongsRef a1 h1 = Ok (o1, h1') ->
      exists o2 h2' res,
        calculateLongestSongsRef a1 h1' = Ok (o2, h2') /\
        load o1 h2' = Some res /\ load o2 h2' = Some res) /\
  (forall o1 h1',
      calculateTourProgressiveRarestSongsRef a1 h1 = Ok (o1, h1') ->
      exists o2 h2' res,
        calculateTourProgressiveRarestSongsRef a1 h1' = Ok (o2, h2') /\
        load o1 h2' = Some res /\ load o2 h2' = Some res).
Proof.
  intros H1 H2.
  pose proof (calculateLongestSongsRef_run a1 h1 input H1) as L1.
  pose proof (calculateLongestSongsRef_run a2 h2 input H2) as L2.
  pose proof (calculateTourProgressiveRarestSongsRef_run a1 h1 input H1)
    as R1.
  pose proof (calculateTourProgressiveRarestSongsRef_run a2 h2 input H2)
    as R2.
  destruct L1 as (o1 & h1' & res1 & Hrun1 & Hres1 & Hout1 & _ & Hp1).
  destruct L2 as (o2 & h2' & res2 & Hrun2 & Hres2 & Hout2 & _ & _).
  assert (res2 = res1) as -> by congruence.
  split; [exists o1, h1', o2, h2', res1; auto|].
  split; [|split].
  - destruct (calculateTourProgressiveRarestSongs (VArr input)) as [res|].
    + destruct R1 as (p1 & g1 & -> & Hp & _).
      destruct R2 as (p2 & g2 & -> & Hq & _). eauto.
    + now rewrite R1, R2.
  - intros p1 g1 Hrun. rewrite Hrun1 in Hrun. injection Hrun as <- <-.
    destruct (calculateLongestSongsRef_run a1 h1' input (Hp1 _ _ H1))
      as (p2 & g2 & res2 & Hrun' & Hres' & Hout' & _ & Hp').
    assert (res2 = res1) as -> by congruence.
    exists p2, g2, res1. auto.
  - intros p1 g1 Hrun.
    destruct (calculateTourProgressiveRarestSongs (VArr input)) as [res|]
      eqn:Hcalc; [|congruence].
    destruct R1 as (p1' & g1' & Hrun1' & Hout & _ & Hp).
    rewrite Hrun1' in Hrun. injection Hrun as <- <-.
    pose proof (calculateTourProgressiveRarestSongsRef_run a1 g1' input
                  (Hp _ _ H1)) as R.
    rewrite Hcalc in R. destruct R as (p2 & g2 & Hrun' & Hout' & _ & Hp').
    exists p2, g2, (map songObject res). auto.
Qed.

Lemma selectors_deterministic_witness :
  exists o1 h1' o2 h2' res,
    calculateLongestSongsRef 0 [summer2025Shows] = Ok (o1, h1') /\
    calculateLongestSongsRef 1 [[]; summer2025Shows] = Ok (o2, h2') /\
    load o1 h1' = Some res /\ load o2 h2' = Some res.
Proof.
  apply (selectors_deterministic [summer2025Shows] [[]; summer2025Shows]
           0 1 summer2025Shows eq_refl eq_refl).
Defined.

(** ** The fallback of the data preparation *)

Lemma forEachM_invariant {S : Type} (P : S -> Prop)
  (body : S -> value -> result S) (l : list value) :
  (forall s x s', P s -> body s x = Ok s' -> P s') ->
  forall s s', P s -> forEachM body l s = Ok s' -> P s'.
Proof.
  intros Hstep. induction l as [|x l IH]; simpl; intros s s' Hs Hrun.
  - now injection Hrun as <-.
  - apply bind_Ok_inv in Hrun. destruct Hrun as [s1 [H1 Hrun]]. eauto.
Qed.

Lemma addSong_truthy (songs : list value) (song : value) (songs' : list value) :
  allTruthy songs -> addSong songs song = Ok songs' -> allTruthy songs'.
Proof.
  unfold addSong. intros Hall H.
  apply bind_Ok_inv in H. destruct H as [name [_ H]]. injection H as <-.
  destruct (truthy name) eqn:Ht; simpl; [|assumption].
  destruct (includes songs name); simpl; [assumption|].
  apply Forall_app. split; [assumption | now constructor].
Qed.

Lemma addSet_truthy (songs : list value) (set : value) (songs' : list value) :
  allTruthy songs -> addSet songs set = Ok songs' -> allTruthy songs'.
Proof.
  unfold addSet. intros Hall H.
  apply bind_Ok_inv in H. destruct H as [ss [_ H]].
  destruct (truthy ss); [|now injection H as <-].
  apply bind_Ok_inv in H. destruct H as [items [_ H]].
  eapply (forEachM_invariant allTruthy addSong); eauto using addSong_truthy.
Qed.

Lemma extractSongNames_truthy (setlist : value) (names : list value) :
  extractSongNames setlist = Ok names -> allTruthy names.
Proof.
  unfold extractSongNames. intros H.
  apply bind_Ok_inv in H. destruct H as [data [_ H]].
  destruct (truthy data); [|injection H as <-; constructor].
  apply bind_Ok_inv in H. destruct H as [sets [_ H]].
  eapply (forEachM_invariant allTruthy addSet); eauto using addSet_truthy.
  constructor.
Qed.

Lemma fallbackTracks_valid (names : list value) (date venue : value) :
  allTruthy names ->
  forall i, 0 <= i -> i + Z.of_nat (List.length names) <= 10 ->
  forallb validTrack (fallbackTracks i names date venue) = true.
Proof.
  induction 1 as [|name names Hname Hall IH]; intros i Hi Hlen;
    [reflexivity|].
  change (List.length (name :: names)) with (S (List.length names)) in Hlen.
  rewrite Nat2Z.inj_succ in Hlen.
  cbn [fallbackTracks forallb]. rewrite IH by lia.
  rewrite andb_true_r. unfold validTrack.
  cbn [truthy getProp lookup String.eqb Ascii.eqb Bool.eqb andb].
  rewrite Hname, andb_true_r. apply Z.gtb_lt. lia.
Qed.

Lemma durationSeconds_track (name : value) (d : Z)
  (rest : list (string * value)) :
  durationSeconds
    (VObj (("songName", name) :: ("durationSeconds", VNum d) :: rest)) = d.
Proof. reflexivity. Qed.

Lemma fallbackTracks_bound (names : list value) (date venue : value) :
  forall i t, In t (fallbackTracks i names date venue) ->
              durationSeconds t <= 600 - i * 60.
Proof.
  induction names as [|name names IH]; cbn [fallbackTracks In];
    intros i t Hin; [tauto|].
  destruct Hin as [<-|Hin].
  - rewrite durationSeconds_track. lia.
  - apply IH in Hin. lia.
Qed.

Lemma fallbackTracks_sorted (names : list value) (date venue : value) :
  forall i, StronglySorted (keyGe durationSeconds)
              (fallbackTracks i names date venue).
Proof.
  induction names as [|name names IH]; cbn [fallbackTracks]; intros i;
    constructor.
  - apply IH.
  - apply Forall_forall. intros t Hin.
    apply fallbackTracks_bound in Hin.
    unfold keyGe. rewrite durationSeconds_track. lia.
Qed.




(** What [getFallbackTrackDurations] answers: an array of placeholder
    tracks, all valid, longest first. *)
Lemma getFallbackTrackDurations_shape (fetch : outcome value) (date : value) :
  exists placeholders,
    getFallbackTrackDurations fetch date = VArr placeholders /\
    forallb validTrack placeholders = true /\
    StronglySorted (keyGe durationSeconds) placeholders /\
    match fetch with
    | Rejected => placeholders = []
    | Resolved setlist =>
        match extractSongNames setlist, extractVenue setlist with
        | Ok names, Ok venue =>
            placeholders = fallbackTracks 0 (firstn 5 names) date venue
        | _, _ => placeholders = []
        end
    end.
Proof.
  unfold getFallbackTrackDurations.
  destruct fetch as [setlist|];
    [|exists []; repeat split; constructor].
  destruct (extractSongNames setlist) as [names|] eqn:Hnames;
    cbn [bind]; [|exists []; repeat split; constructor].
  destruct (extractVenue setlist) as [venue|];
    cbn [bind]; [|exists []; repeat split; constructor].
  unfold slice0. eexists. split; [reflexivity|].
  split; [|split; [apply fallbackTracks_sorted | reflexivity]].
  apply fallbackTracks_valid; [|lia|].
  - apply extractSongNames_truthy in Hnames. unfold allTruthy in *.
    rewrite Forall_forall in *. intros v Hv. apply Hnames.
    eapply in_firstn; eauto.
  - pose proof (firstn_le_length 5 names). lia.
Qed.

(** ** The repository's tests, and the boundaries of the validation *)

Example rarest_skips_invalid_gap_info :
  option_map (map summary)
    (match calculateTourProgressiveRarestSongs invalidGapShows with
     | Ok out => Some out
     | TypeError => None
     end)
  = Some [(VStr "Valid Song", 100, VStr "Test Venue", VStr "2025-07-01")].
Proof. reflexivity. Qed.

Example longest_skips_invalid_tracks :
  calculateLongestSongs invalidTracks = Ok [track (VStr "Valid Song") 180].
Proof. reflexivity. Qed.

Example longest_summer2025 :
  calculateLongestSongs summer2025Tracks
  = Ok [track (VStr "What's Going Through Your Mind") 2544;
        track (VStr "Sand") 2383;
        track (VStr "Down with Disease") 2048].
Proof. reflexivity. Qed.

Example selectors_empty_input :
  calculateLongestSongs (VArr []) = Ok [] /\
  calculateTourProgressiveRarestSongs (VArr []) = Ok [].
Proof. split; reflexivity. Qed.

Example rarest_gap_zero_is_valid :
  option_map (map summary)
    (match calculateTourProgressiveRarestSongs
             (VArr [scenarioShow "2025-07-01" "Test Venue" "Fee" 0]) with
     | Ok out => Some out
     | TypeError => None
     end)
  = Some [(VStr "Fee", 0, VStr "Test Venue", VStr "2025-07-01")].
Proof. reflexivity. Qed.

(** The first of two equal gaps stays: "Sand" keeps the show of
    2024-07-15, whatever the capitalisation of the later observation. *)
Example rarest_first_of_equal_gaps :
  option_map (map summary)
    (match calculateTourProgressiveRarestSongs (VArr sandShows) with
     | Ok out => Some out
     | TypeError => None
     end)
  = Some [(VStr "Sand", 45, VStr "United Center", VStr "2024-07-15")].
Proof. reflexivity. Qed.

(** [sort] does write to the array it is called on. *)
Example arrSort_writes :
  load 0 (arrSort byDurationDesc 0
            [[track (VStr "Sand") 100; track (VStr "Tweezer") 200]])
  = Some [track (VStr "Tweezer") 200; track (VStr "Sand") 100].
Proof. reflexivity. Qed.

(** * Further properties of the engine *)

(** ** Size and content of the top three *)

Lemma in_skipn {A : Type} (n : nat) (l : list A) (x : A) :
  In x (skipn n l) -> In x l.
Proof.
  intros H. rewrite <- (firstn_skipn n l). apply in_or_app. now right.
Qed.

Lemma sorted_firstn_skipn {A : Type} (key : A -> Z) (l : list A) :
  StronglySorted (keyGe key) l ->
  forall n a b, In a (firstn n l) -> In b (skipn n l) -> key a >= key b.
Proof.
  induction 1 as [|x l Hs IH Hx]; intros [|n] a b Ha Hb; simpl in *;
    try tauto.
  destruct Ha as [<-|Ha].
  - rewrite Forall_forall in Hx. apply Hx. eapply in_skipn; eauto.
  - eapply IH; eauto.
Qed.

Lemma top_or_dominated {A : Type} (key : A -> Z) (n : nat) (l : list A)
  (x : A) :
  StronglySorted (keyGe key) l ->
  In x l ->
  In x (firstn n l) \/ forall o, In o (firstn n l) -> key o >= key x.
Proof.
  intros Hs Hin. rewrite <- (firstn_skipn n l) in Hin.
  apply in_app_or in Hin. destruct Hin as [Hin|Hin]; [now left|right].
  intros o Ho. eapply sorted_firstn_skipn; eauto.
Qed.

Lemma retains_length (obs : list (value * value)) (m : SongMap) :
  retains obs m ->
  List.length (mapValues m)
  = List.length (firstOccurrences (observedKeys obs)).
Proof.
  intros [Hkeys _]. unfold mapValues. rewrite length_map.
  rewrite <- Hkeys. now rewrite length_map.
Qed.

(** X1. The reducer returns as many records as there are distinct songs
    (lower-cased names) among the valid observations, up to three. *)
Theorem rarest_output_size (tourShows : value) (out : list RarestSong) :
  calculateTourProgressiveRarestSongs tourShows = Ok out ->
  List.length out
  = Nat.min 3 (List.length
                 (firstOccurrences
                    (observedKeys (observationsOf tourShows)))).
Proof.
  intros Hrun. destruct (calculate_Ok_inv _ _ Hrun) as (m & Hm & ->).
  rewrite length_firstn.
  rewrite <- (Permutation_length (sortBy_perm byGapDesc (mapValues m))).
  now rewrite (retains_length _ _ (tourSongGapsOf_retains _ _ Hm)).
Qed.

Lemma rarest_output_size_witness :
  exists out,
    calculateTourProgressiveRarestSongs (VArr sandShows) = Ok out /\
    List.length out = 1%nat.
Proof.
  eexists. split; [vm_compute; reflexivity|].
  etransitivity;
    [apply (rarest_output_size (VArr sandShows)); vm_compute; reflexivity|].
  reflexivity.
Defined.

(** X2. A retained record that the reducer does not return has a gap no
    larger than that of any record it returns: the output holds the
    largest gaps of the tour. *)
Theorem rarest_output_holds_largest_gaps (tourShows : value)
  (out : list RarestSong) (m : SongMap) (e : RarestSong) :
  calculateTourProgressiveRarestSongs tourShows = Ok out ->
  tourSongGapsOf tourShows = Ok m ->
  In e (mapValues m) ->
  In e out \/ forall o, In o out -> gap o >= gap e.
Proof.
  intros Hrun Hm Hin. destruct (calculate_Ok_inv _ _ Hrun) as (m' & Hm' & ->).
  assert (m' = m) as -> by congruence.
  apply top_or_dominated.
  - now apply sortBy_sorted.
  - apply (Permutation_in _ (sortBy_perm byGapDesc _)). assumption.
Qed.

Lemma rarest_output_holds_largest_gaps_witness :
  exists out m e,
    calculateTourProgressiveRarestSongs summer2025 = Ok out /\
    tourSongGapsOf summer2025 = Ok m /\
    In e (mapValues m) /\
    (In e out \/ forall o, In o out -> gap o >= gap e).
Proof.
  eexists. eexists. eexists.
  split; [vm_compute; reflexivity|].
  split; [vm_compute; reflexivity|].
  split; [left; reflexivity|].
  eapply (rarest_output_holds_largest_gaps summer2025);
    [vm_compute; reflexivity | vm_compute; reflexivity | left; reflexivity].
Defined.


(** ** One song, one record *)

Lemma retained_songKey (obs : list (value * value)) (m : SongMap)
  (k : string) (e : RarestSong) :
  retains obs m -> mapGet k m = Some e -> songKey e = Some k.
Proof.
  intros [_ Hent] Hget. specialize (Hent k). rewrite Hget in Hent.
  destruct Hent as (show & gi & name & (pre & post & _ & Hobs & _)
                    & Hname & Hmk).
  destruct (observed_Some_inv _ _ _ Hobs) as (s & Hs & _ & _ & _ & ->).
  destruct (makeEntry_fields _ _ _ _ _ Hmk)
    as (_ & _ & _ & _ & _ & _ & Hsong & _).
  unfold songKey. rewrite Hsong.
  assert (name = VStr s) as -> by congruence. reflexivity.
Qed.

Lemma retained_songKeys (obs : list (value * value)) (m : SongMap) :
  retains obs m -> map songKey (mapValues m) = map Some (map fst m).
Proof.
  intros Hret.
  assert (Hall : forall k e, In (k, e) m -> songKey e = Some k).
  { intros k e Hin. eapply retained_songKey; [eassumption|].
    apply In_mapGet; [|assumption].
    destruct Hret as [-> _]. apply firstOccurrences_NoDup. }
  clear Hret. unfold mapValues. induction m as [|[k e] m IH];
    [reflexivity|].
  simpl. rewrite (Hall k e) by now left.
  f_equal. apply IH. intros k' e' Hin. apply Hall. now right.
Qed.

Lemma NoDup_map_Some {A : Type} (l : list A) :
  NoDup l -> NoDup (map Some l).
Proof.
  induction 1 as [|x l Hx Hnd IH]; simpl; constructor; [|assumption].
  intros Hin. apply in_map_iff in Hin. destruct Hin as [y [Heq Hy]].
  injection Heq as ->. now apply Hx.
Qed.

Lemma NoDup_firstn {A : Type} (n : nat) (l : list A) :
  NoDup l -> NoDup (firstn n l).
Proof.
  intros Hnd. revert n. induction Hnd as [|x l Hx Hnd IH]; intros [|n];
    simpl; try constructor.
  - intros Hin. apply Hx. eapply in_firstn; eauto.
  - apply IH.
Qed.

(** X4. No song is returned twice: the lower-cased names of the returned
    records are pairwise different, and each record has a string name. *)
Theorem rarest_output_distinct_songs (tourShows : value)
  (out : list RarestSong) :
  calculateTourProgressiveRarestSongs tourShows = Ok out ->
  NoDup (map songKey out) /\
  forall e, In e out -> exists s, songName e = VStr s.
Proof.
  intros Hrun. destruct (calculate_Ok_inv _ _ Hrun) as (m & Hm & ->).
  pose proof (tourSongGapsOf_retains _ _ Hm) as Hret.
  assert (Hkeys : NoDup (map songKey (mapValues m))).
  { rewrite (retained_songKeys _ _ Hret).
    apply NoDup_map_Some.
    destruct Hret as [-> _]. apply firstOccurrences_NoDup. }
  split.
  - rewrite <- firstn_map. apply NoDup_firstn.
    eapply Permutation_NoDup; [|exact Hkeys].
    apply Permutation_map. apply sortBy_perm.
  - intros e Hin. apply in_firstn in Hin.
    apply (Permutation_in _ (Permutation_sym (sortBy_perm byGapDesc _)))
      in Hin.
    destruct (retained_value_lookup _ _ _ Hret Hin) as [k Hk].
    pose proof (retained_songKey _ _ _ _ Hret Hk) as Hkey.
    unfold songKey in Hkey. destruct (songName e); try discriminate. eauto.
Qed.

Lemma rarest_output_distinct_songs_witness :
  exists out,
    calculateTourProgressiveRarestSongs summer2025 = Ok out /\
    NoDup (map songKey out).
Proof.
  eexists. split; [vm_compute; reflexivity|].
  apply (rarest_output_distinct_songs summer2025 _ eq_refl).
Defined.

(** ** Tour-progressive: what later shows can change *)

Lemma forEachM_app {S : Type} (body : S -> value -> result S)
  (l1 l2 : list value) (s : S) :
  forEachM body (l1 ++ l2) s
  = bind (forEachM body l1 s) (forEachM body l2).
Proof.
  revert s. induction l1 as [|x l1 IH]; intros s; simpl; [reflexivity|].
  destruct (body s x) as [s1|]; simpl; [apply IH | reflexivity].
Qed.

Lemma processGapInfo_grows (show gi : value) (m m' : SongMap) (k : string)
  (e : RarestSong) :
  processGapInfo show m gi = Ok m' ->
  mapGet k m = Some e ->
  exists e', mapGet k m' = Some e' /\ (e' = e \/ gap e' > gap e).
Proof.
  intros Hrun Hget.
  destruct (processGapInfo_cases _ _ _ _ Hrun)
    as [[_ ->] | (k0 & n & name & _ & _ & Hcase)]; [eauto|].
  destruct (String.eqb_spec k k0) as [->|Hne].
  - rewrite Hget in Hcase. destruct (n >? gap e) eqn:Egt.
    + destruct Hcase as (e' & Hmk & ->). exists e'.
      rewrite mapGet_mapSet_eq. split; [reflexivity|right].
      rewrite (makeEntry_gap _ _ _ _ _ Hmk). apply Z.gtb_lt in Egt. lia.
    + subst m'. eauto.
  - assert (mapGet k m' = mapGet k m) as Heq.
    { destruct (mapGet k0 m) as [ex|].
      - destruct (n >? gap ex).
        + destruct Hcase as (e' & _ & ->). now apply mapGet_mapSet_neq.
        + now subst.
      - destruct Hcase as (e' & _ & ->). now apply mapGet_mapSet_neq. }
    exists e. rewrite Heq. auto.
Qed.

Lemma forEachM_grows (body : SongMap -> value -> result SongMap) :
  (forall m x m' k e,
      body m x = Ok m' -> mapGet k m = Some e ->
      exists e', mapGet k m' = Some e' /\ (e' = e \/ gap e' > gap e)) ->
  forall l m m' k e,
    forEachM body l m = Ok m' -> mapGet k m = Some e ->
    exists e', mapGet k m' = Some e' /\ (e' = e \/ gap e' > gap e).
Proof.
  intros Hstep. induction l as [|x l IH]; simpl; intros m m' k e Hrun Hget.
  - injection Hrun as <-. eauto.
  - apply bind_Ok_inv in Hrun. destruct Hrun as [m1 [H1 Hrun]].
    destruct (Hstep _ _ _ _ _ H1 Hget) as (e1 & Hget1 & Hrel1).
    destruct (IH _ _ _ _ Hrun Hget1) as (e' & Hget' & Hrel').
    exists e'. split; [assumption|].
    destruct Hrel1 as [->|Hgt1]; [assumption|].
    right. destruct Hrel' as [->|Hgt']; lia.
Qed.

Lemma processShow_grows (show : value) (m m' : SongMap) (k : string)
  (e : RarestSong) :
  processShow m show = Ok m' ->
  mapGet k m = Some e ->
  exists e', mapGet k m' = Some e' /\ (e' = e \/ gap e' > gap e).
Proof.
  unfold processShow. intros Hrun Hget.
  apply bind_Ok_inv in Hrun. destruct Hrun as [d [_ Hrun]].
  apply bind_Ok_inv in Hrun. destruct Hrun as [gaps [_ Hrun]].
  destruct gaps; try (injection Hrun as <-; eauto).
  eapply (forEachM_grows (processGapInfo show)); eauto.
  intros. eapply processGapInfo_grows; eauto.
Qed.

(** X5. Adding shows to the end of a tour never loses a song and never
    lowers its gap: the record retained for a song after the longer tour is
    the one retained before, unless a later show observed a strictly larger
    gap. *)
Theorem rarest_progressive (shows more : list value) (m m' : SongMap)
  (k : string) (e : RarestSong) :
  collectTourSongGaps shows = Ok m ->
  collectTourSongGaps (shows ++ more) = Ok m' ->
  mapGet k m = Some e ->
  exists e', mapGet k m' = Some e' /\ (e' = e \/ gap e' > gap e).
Proof.
  unfold collectTourSongGaps. intros Hm Hm' Hget.
  rewrite forEachM_app, Hm in Hm'. cbn [bind] in Hm'.
  eapply (forEachM_grows processShow); eauto.
  intros. eapply processShow_grows; eauto.
Qed.

Lemma rarest_progressive_witness :
  exists m m' e,
    collectTourSongGaps (firstn 1 sandShows) = Ok m /\
    collectTourSongGaps (firstn 1 sandShows ++ skipn 1 sandShows) = Ok m' /\
    mapGet "sand" m = Some e /\
    exists e', mapGet "sand" m' = Some e' /\ (e' = e \/ gap e' > gap e).
Proof.
  eexists. eexists. eexists.
  split; [vm_compute; reflexivity|].
  split; [vm_compute; reflexivity|].
  split; [vm_compute; reflexivity|].
  eapply (rarest_progressive (firstn 1 sandShows) (skipn 1 sandShows));
    vm_compute; reflexivity.
Defined.

(** ** The order of the shows decides the attribution, not the gaps *)





(** ** What an observation says about its own date and venue is not read *)

Lemma processGapInfo_ignores_embedded_context (show gi date venue : value)
  (m : SongMap) :
  processGapInfo show m (withEmbeddedContext date venue gi)
  = processGapInfo show m gi.
Proof. destruct gi; reflexivity. Qed.

(** X7. The reducer never reads the [tourDate] and [tourVenue] fields of
    an observation: writing any date and venue over those of every
    observation of a show leaves the outcome of processing that show, map
    and exceptions included, as it was. *)
Theorem rarest_ignores_embedded_context (show date venue : value)
  (gapInfos : list value) (m : SongMap) :
  forEachM (processGapInfo show)
    (map (withEmbeddedContext date venue) gapInfos) m
  = forEachM (processGapInfo show) gapInfos m.
Proof.
  revert m. induction gapInfos as [|gi gis IH]; intros m; [reflexivity|].
  cbn [map forEachM]. rewrite processGapInfo_ignores_embedded_context.
  destruct (processGapInfo show m gi) as [m1|]; [apply IH | reflexivity].
Qed.

(** * The data preparation *)

(** ** [extractVenue] *)

Lemma venue_or_unknown (venue : value) :
  (if truthy venue && negb (isUnknownVenue venue) then venue
   else VStr "Unknown Venue")
  = orElse venue (VStr "Unknown Venue") /\
  truthy (orElse venue (VStr "Unknown Venue")) = true.
Proof.
  unfold orElse. destruct (truthy venue) eqn:Ht; cbn [andb]; [|auto].
  destruct (isUnknownVenue venue) eqn:U; cbn [negb]; [|auto].
  destruct venue; try discriminate.
  simpl in U. apply String.eqb_eq in U. subst. auto.
Qed.

Lemma orElse_default (v1 v2 v3 v4 d : value) :
  orElse (orElse v1 (orElse v2 (orElse v3 (orElse v4 VNull)))) d
  = orElse v1 (orElse v2 (orElse v3 (orElse v4 d))).
Proof.
  unfold orElse.
  destruct (truthy v1) eqn:T1; [now rewrite T1|].
  destruct (truthy v2) eqn:T2; [now rewrite T2|].
  destruct (truthy v3) eqn:T3; [now rewrite T3|].
  destruct (truthy v4) eqn:T4; [now rewrite T4|].
  reflexivity.
Qed.

(** X8. [extractVenue] raises only on [null] and [undefined]; on every
    other response it returns the first truthy one of [venue],
    [venuename], [venue_name] and [location], and "Unknown Venue" when none
    is truthy, so what it returns is always truthy.  The comparison with
    "Unknown Venue" changes nothing in the value returned: an "Unknown
    Venue" in an earlier field hides a name in a later one. *)
Theorem extractVenue_first_truthy (apiResponse v1 v2 v3 v4 : value) :
  getProp apiResponse "venue" = Ok v1 ->
  getProp apiResponse "venuename" = Ok v2 ->
  getProp apiResponse "venue_name" = Ok v3 ->
  getProp apiResponse "location" = Ok v4 ->
  exists venue,
    extractVenue apiResponse = Ok venue /\
    venue = orElse v1 (orElse v2 (orElse v3
              (orElse v4 (VStr "Unknown Venue")))) /\
    truthy venue = true.
Proof.
  intros H1 H2 H3 H4. unfold extractVenue. rewrite H1, H2, H3, H4.
  cbn [bind]. eexists. split; [reflexivity|].
  destruct (venue_or_unknown
              (orElse v1 (orElse v2 (orElse v3 (orElse v4 VNull)))))
    as [Heq Ht].
  rewrite Heq. rewrite orElse_default in *. split; [reflexivity | exact Ht].
Qed.

Lemma extractVenue_first_truthy_witness :
  exists venue,
    extractVenue
      (VObj [("venue", VStr "Unknown Venue");
             ("venuename", VStr "Madison Square Garden")]) = Ok venue /\
    venue = VStr "Unknown Venue" /\ truthy venue = true.
Proof.
  destruct (extractVenue_first_truthy
              (VObj [("venue", VStr "Unknown Venue");
                     ("venuename", VStr "Madison Square Garden")])
              _ _ _ _ eq_refl eq_refl eq_refl eq_refl)
    as (venue & Hrun & Heq & Ht).
  exists venue. repeat split; [exact Hrun | exact Heq | exact Ht].
Defined.

Lemma extractVenue_raises (apiResponse : value) :
  extractVenue apiResponse = TypeError <->
  apiResponse = VUndefined \/ apiResponse = VNull.
Proof.
  split.
  - destruct apiResponse; auto; discriminate.
  - intros [->| ->]; reflexivity.
Qed.

(** ** [extractSongNames] *)

Lemma sameValueZero_eq (a b : value) : sameValueZero a b = true -> a = b.
Proof.
  destruct a, b; simpl; try discriminate; intros H; try reflexivity.
  - apply Bool.eqb_prop in H. now subst.
  - apply Z.eqb_eq in H. now subst.
  - apply String.eqb_eq in H. now subst.
Qed.

Lemma addSong_pushNew (songs : list value) (song : value)
  (songs' : list value) :
  addSong songs song = Ok songs' ->
  songs' = fold_left pushNew (songsOf [song]) songs.
Proof.
  unfold addSong, songsOf. intros H.
  apply bind_Ok_inv in H. destruct H as [name [Hname H]].
  injection H as <-. simpl. now rewrite Hname.
Qed.

Lemma songsOf_cons (song : value) (items : list value) :
  songsOf (song :: items) = songsOf [song] ++ songsOf items.
Proof. unfold songsOf. simpl. now rewrite app_nil_r. Qed.

Lemma forEachM_addSong_pushNew (items : list value) :
  forall songs songs',
    forEachM addSong items songs = Ok songs' ->
    songs' = fold_left pushNew (songsOf items) songs.
Proof.
  induction items as [|song items IH]; cbn [forEachM];
    intros songs songs' H.
  - now injection H as <-.
  - apply bind_Ok_inv in H. destruct H as [s1 [H1 H]].
    rewrite songsOf_cons, fold_left_app.
    rewrite <- (addSong_pushNew _ _ _ H1). now apply IH.
Qed.

Lemma addSet_pushNew (songs : list value) (set : value)
  (songs' : list value) :
  addSet songs set = Ok songs' ->
  songs' = fold_left pushNew (setSongs set) songs.
Proof.
  unfold addSet, setSongs. intros H.
  apply bind_Ok_inv in H. destruct H as [ss [-> H]].
  destruct (truthy ss); [|now injection H as <-].
  apply bind_Ok_inv in H. destruct H as [items [-> H]].
  now apply forEachM_addSong_pushNew.
Qed.

Lemma forEachM_addSet_pushNew (sets : list value) :
  forall songs songs',
    forEachM addSet sets songs = Ok songs' ->
    songs' = fold_left pushNew (flat_map setSongs sets) songs.
Proof.
  induction sets as [|set sets IH]; simpl; intros songs songs' H.
  - now injection H as <-.
  - apply bind_Ok_inv in H. destruct H as [s1 [H1 H]].
    rewrite fold_left_app, <- (addSet_pushNew _ _ _ H1). now apply IH.
Qed.

Lemma extractSongNames_pushNew (setlist : value) (names : list value) :
  extractSongNames setlist = Ok names ->
  names = fold_left pushNew (songCandidates setlist) [].
Proof.
  unfold extractSongNames, songCandidates. intros H.
  apply bind_Ok_inv in H. destruct H as [data [-> H]].
  destruct (truthy data); [|now injection H as <-].
  apply bind_Ok_inv in H. destruct H as [sets [-> H]].
  now apply forEachM_addSet_pushNew.
Qed.

Lemma pushNew_In (songs : list value) (name x : value) :
  In x (pushNew songs name) <->
  In x songs \/ (x = name /\ truthy name = true).
Proof.
  unfold pushNew. destruct (truthy name) eqn:Ht; cbn [andb].
  - destruct (includes songs name) eqn:Hinc; cbn [negb].
    + split; [auto|]. intros [H|[-> _]]; [assumption|].
      unfold includes in Hinc. apply existsb_exists in Hinc.
      destruct Hinc as [y [Hy Heq]].
      apply sameValueZero_eq in Heq. now subst.
    + rewrite in_app_iff. simpl. split.
      * intros [H|[<-|[]]]; auto.
      * intros [H|[-> _]]; auto.
  - split; [auto|]. intros [H|[_ H]]; [assumption | discriminate].
Qed.

Lemma fold_pushNew_In (cands : list value) : forall songs x,
  In x (fold_left pushNew cands songs) <->
  In x songs \/ (In x cands /\ truthy x = true).
Proof.
  induction cands as [|c cands IH]; simpl; intros songs x.
  - tauto.
  - rewrite IH, pushNew_In. split.
    + intros [[H|[-> H]]|[H1 H2]]; auto.
    + intros [H|[[<-|H1] H2]]; auto.
Qed.

(** Later elements differ from earlier ones, as [includes] compares. *)
Lemma pushNew_distinct (songs : list value) (name : value) :
  ForallOrdPairs (fun earlier later => sameValueZero later earlier = false)
    songs ->
  ForallOrdPairs (fun earlier later => sameValueZero later earlier = false)
    (pushNew songs name).
Proof.
  unfold pushNew. intros H.
  destruct (truthy name); cbn [andb]; [|assumption].
  destruct (includes songs name) eqn:Hinc; cbn [negb]; [assumption|].
  unfold includes in Hinc.
  induction H as [|y songs Hy Hrest IH]; simpl.
  - repeat constructor.
  - simpl in Hinc. apply orb_false_elim in Hinc. destruct Hinc as [Hy' Hinc].
    constructor; [|now apply IH].
    apply Forall_app. split; [assumption|]. now constructor.
Qed.

Lemma fold_pushNew_distinct (cands : list value) : forall songs,
  ForallOrdPairs (fun earlier later => sameValueZero later earlier = false)
    songs ->
  ForallOrdPairs (fun earlier later => sameValueZero later earlier = false)
    (fold_left pushNew cands songs).
Proof.
  induction cands as [|c cands IH]; simpl; intros songs H; [assumption|].
  apply IH. now apply pushNew_distinct.
Qed.

(** X9. When [extractSongNames] returns, the names it returns are exactly
    the truthy [song] fields of the setlist, each once: a later name is
    never the same value as an earlier one. *)
Theorem extractSongNames_distinct_truthy (setlist : value)
  (names : list value) :
  extractSongNames setlist = Ok names ->
  (forall x, In x names <->
             In x (songCandidates setlist) /\ truthy x = true) /\
  ForallOrdPairs (fun earlier later => sameValueZero later earlier = false)
    names.
Proof.
  intros H. apply extractSongNames_pushNew in H. subst names. split.
  - intros x. rewrite fold_pushNew_In. simpl. tauto.
  - apply fold_pushNew_distinct. constructor.
Qed.

Lemma extractSongNames_distinct_truthy_witness :
  exists names,
    extractSongNames sampleSetlist = Ok names /\
    ForallOrdPairs (fun earlier later => sameValueZero later earlier = false)
      names.
Proof.
  eexists. split; [vm_compute; reflexivity|].
  apply (extractSongNames_distinct_truthy sampleSetlist).
  vm_compute; reflexivity.
Defined.

(** ** [getFallbackTrackDurations] and [fetchTourDataForCalculation] *)

Lemma fallbackTracks_length (names : list value) (date venue : value) :
  forall i, List.length (fallbackTracks i names date venue)
            = List.length names.
Proof.
  induction names as [|name names IH]; intros i; cbn [fallbackTracks];
    simpl; [reflexivity|]. now rewrite IH.
Qed.

Lemma fallbackTracks_nth (names : list value) (date venue : value) :
  forall i0 i t,
    nth_error (fallbackTracks i0 names date venue) i = Some t ->
    durationSeconds t = 600 - (i0 + Z.of_nat i) * 60 /\
    getProp t "showDate" = Ok date /\
    getProp t "venue" = Ok venue /\
    getProp t "venueRun" = Ok VNull /\
    exists name, nth_error names i = Some name /\
                 getProp t "songName" = Ok name.
Proof.
  induction names as [|name names IH]; cbn [fallbackTracks];
    intros i0 [|i] t H; try discriminate.
  - cbn [nth_error] in H.
    match type of H with
    | Some ?o = Some _ => assert (Ht : t = o) by congruence
    end.
    clear H. subst t.
    split; [rewrite durationSeconds_track; lia|].
    split; [reflexivity|]. split; [reflexivity|]. split; [reflexivity|].
    exists name. split; reflexivity.
  - cbn [nth_error] in H. destruct (IH _ _ _ H) as (Hd & Hrest).
    split; [rewrite Hd; lia | exact Hrest].
Qed.

(** X10. [getFallbackTrackDurations] never raises, whatever the fetch of
    the setlist gives: it returns an array of at most five tracks that all
    pass the filter of the longest-songs selector; the track at index [i]
    carries the date of the latest show, no venue run, and the placeholder
    duration [600 - 60 * i]. *)
Theorem getFallbackTrackDurations_placeholders (fetchShowSetlist : outcome value)
  (latestShowDate : value) :
  exists placeholders,
    getFallbackTrackDurations fetchShowSetlist latestShowDate
    = VArr placeholders /\
    (List.length placeholders <= 5)%nat /\
    forallb validTrack placeholders = true /\
    forall i t,
      nth_error placeholders i = Some t ->
      durationSeconds t = 600 - 60 * Z.of_nat i /\
      getProp t "showDate" = Ok latestShowDate /\
      getProp t "venueRun" = Ok VNull.
Proof.
  destruct (getFallbackTrackDurations_shape fetchShowSetlist latestShowDate)
    as (placeholders & Heq & Hvalid & _ & Hshape).
  exists placeholders. split; [exact Heq|].
  assert (Hcases : placeholders = [] \/
                   exists names venue,
                     placeholders
                     = fallbackTracks 0 (firstn 5 names) latestShowDate venue).
  { destruct fetchShowSetlist as [setlist|]; [|now left].
    destruct (extractSongNames setlist) as [names|]; [|now left].
    destruct (extractVenue setlist) as [venue|]; [|now left].
    right. eauto. }
  destruct Hcases as [->|(names & venue & ->)].
  - split; [simpl; lia|]. split; [reflexivity|].
    intros [|i] t H; discriminate.
  - split; [rewrite fallbackTracks_length; apply firstn_le_length|].
    split; [exact Hvalid|].
    intros i t H. destruct (fallbackTracks_nth _ _ _ _ _ _ H)
      as (Hd & Hdate & _ & Hrun & _).
    split; [rewrite Hd; lia | auto].
Qed.

(** X11. Whatever the outcomes of the fetches, [fetchTourDataForCalculation]
    hands the longest-songs selector something it returns on.  When either
    tour-wide fetch is rejected the shows are the empty array and the
    durations the fallback of the [catch] block; the shows are otherwise
    the fetched ones or, when reading their [length] raises, the empty
    array. *)
Theorem fetchTourDataForCalculation_never_fails
  (fetchTourTrackDurations fetchTourShowsWithGaps : outcome value)
  (setlistInTry setlistInCatch : outcome value) (latestShowDate : value) :
  let fallbackInTry :=
    getFallbackTrackDurations setlistInTry latestShowDate in
  let fallbackInCatch :=
    getFallbackTrackDurations setlistInCatch latestShowDate in
  let tourData :=
    fetchTourDataForCalculation fetchTourTrackDurations
      fetchTourShowsWithGaps fallbackInTry fallbackInCatch in
  (exists longest,
      calculateLongestSongs (allTourTrackDurations tourData) = Ok longest) /\
  (fetchTourTrackDurations = Rejected \/ fetchTourShowsWithGaps = Rejected ->
   tourData = {| allTourTrackDurations := fallbackInCatch;
                 tourShows := VArr [] |}) /\
  (forall shows,
      fetchTourShowsWithGaps = Resolved shows ->
      tourShows tourData = shows \/ tourShows tourData = VArr []).
Proof.
  intros fallbackInTry fallbackInCatch tourData.
  assert (Hfb : forall fetch,
             exists longest,
               calculateLongestSongs
                 (getFallbackTrackDurations fetch latestShowDate)
               = Ok longest).
  { intros fetch.
    destruct (getFallbackTrackDurations_shape fetch latestShowDate)
      as (placeholders & -> & _).
    apply (calculateLongestSongs_returns (VArr placeholders)). }
  assert (Htruthy : forall v, truthy v = true ->
                      exists longest, calculateLongestSongs v = Ok longest).
  { intros v Hv. pose proof (calculateLongestSongs_returns v) as H.
    destruct v; try discriminate; exact H. }
  subst tourData. unfold fetchTourDataForCalculation.
  destruct fetchTourTrackDurations as [durations|];
    [|split; [apply Hfb | split; [reflexivity | intros; now right]]].
  destruct (truthy durations) eqn:Ht; cbn [negb orb].
  - destruct (hasLengthZero durations).
    + destruct fetchTourShowsWithGaps as [shows|]; cbn.
      * split; [apply Hfb|]. split; [intros [H|H]; discriminate|].
        intros s H. injection H as <-. now left.
      * split; [apply Hfb|]. split; [reflexivity | intros; now right].
    + destruct fetchTourShowsWithGaps as [shows|]; cbn.
      * destruct (getProp shows "length"); cbn.
        -- split; [now apply Htruthy|]. split; [intros [H|H]; discriminate|].
           intros s H. injection H as <-. now left.
        -- split; [apply Hfb|]. split; [intros [H|H]; discriminate|].
           intros; now right.
      * split; [apply Hfb|]. split; [reflexivity | intros; now right].
  - destruct fetchTourShowsWithGaps as [shows|]; cbn.
    + split; [apply Hfb|]. split; [intros [H|H]; discriminate|].
      intros s H. injection H as <-. now left.
    + split; [apply Hfb|]. split; [reflexivity | intros; now right].
Qed.

(** * Formatting the results *)

Example formatLongestSong_runTrack :
  formatLongestSong runTrack
  = Ok (VObj [("songName", VStr "Tweezer");
              ("durationSeconds", VNum 1383);
              ("showDate", VStr "2025-07-16");
              ("venue", VStr "Unknown Venue");
              ("venueRun", VObj [("showNumber", VNum 2);
                                 ("totalShows", VNum 3);
                                 ("displayText", VStr "N2/3")])]).
Proof. reflexivity. Qed.

Lemma formatLongestSong_fields (song : value) :
  truthy song = true ->
  exists formatted venue,
    formatLongestSong song = Ok formatted /\
    getProp formatted "songName" = getProp song "songName" /\
    getProp formatted "durationSeconds" = getProp song "durationSeconds" /\
    getProp formatted "showDate" = getProp song "showDate" /\
    getProp formatted "venue" = Ok venue /\ truthy venue = true.
Proof.
  intros Hsong.
  assert (Hprop : forall k, exists x, getProp song k = Ok x).
  { intros k. destruct song; try discriminate; simpl; eauto. }
  unfold formatLongestSong.
  destruct (Hprop "songName") as [name Hname].
  destruct (Hprop "durationSeconds") as [seconds Hseconds].
  destruct (Hprop "showDate") as [showDate HshowDate].
  destruct (Hprop "venue") as [venue Hvenue].
  destruct (Hprop "venueRun") as [venueRun HvenueRun].
  rewrite Hname, Hseconds, HshowDate, Hvenue, HvenueRun. cbn [bind].
  assert (Hrun : exists run,
             (if truthy venueRun then
                night <- getProp venueRun "nightNumber" ;;
                total <- getProp venueRun "totalNights" ;;
                text <- getProp venueRun "displayText" ;;
                Ok (VObj [("showNumber", orElse night (VNum 1));
                          ("totalShows", orElse total (VNum 1));
                          ("displayText",
                           orElse text
                             (VStr ("N" ++ toStr (orElse night (VNum 1))
                                    ++ "/"
                                    ++ toStr (orElse total (VNum 1)))%string))])
              else Ok VNull) = Ok run).
  { destruct (truthy venueRun) eqn:Ht; [|eauto].
    destruct venueRun; try discriminate; simpl; eauto. }
  destruct Hrun as [run ->]. cbn [bind].
  eexists. exists (orElse venue (VStr "Unknown Venue")).
  split; [reflexivity|]. repeat split.
  unfold orElse. destruct (truthy venue) eqn:Hv; [assumption | reflexivity].
Qed.

Lemma mapM_formatLongestSong (songs : list value) :
  (forall t, In t songs -> truthy t = true) ->
  exists formatted,
    mapM formatLongestSong songs = Ok formatted /\
    List.length formatted = List.length songs /\
    forall i t,
      nth_error songs i = Some t ->
      exists o venue,
        nth_error formatted i = Some o /\
        getProp o "songName" = getProp t "songName" /\
        getProp o "durationSeconds" = getProp t "durationSeconds" /\
        getProp o "showDate" = getProp t "showDate" /\
        getProp o "venue" = Ok venue /\ truthy venue = true.
Proof.
  induction songs as [|song songs IH]; intros Hall.
  - exists []. repeat split. intros [|i] t H; discriminate.
  - destruct (formatLongestSong_fields song (Hall _ (or_introl eq_refl)))
      as (o & venue & Ho & Hfields).
    destruct IH as (os & Hos & Hlen & Hnth);
      [intros t Ht; apply Hall; now right|].
    exists (o :: os). cbn [mapM]. rewrite Ho, Hos. cbn [bind].
    split; [reflexivity|]. split; [simpl; now rewrite Hlen|].
    intros [|i] t H; cbn [nth_error] in *.
    + assert (t = song) as -> by congruence. exists o, venue. auto.
    + now apply Hnth.
Qed.

Lemma validTrack_truthy (t : value) : validTrack t = true -> truthy t = true.
Proof. unfold validTrack. intros H. apply andb_prop in H. tauto. Qed.

(** X12. Formatting never raises on what the longest-songs selector
    returns: it gives as many objects, in the same order, each with the
    name, the duration and the date of its track, and with a truthy venue
    ("Unknown Venue" where the track has none). *)
Theorem formatLongestSongsForAPI_on_selector_output (tracks : list value) :
  exists longest formatted,
    calculateLongestSongs (VArr tracks) = Ok longest /\
    formatLongestSongsForAPI (VArr longest) = Ok (VArr formatted) /\
    List.length formatted = List.length longest /\
    forall i t,
      nth_error longest i = Some t ->
      exists o venue,
        nth_error formatted i = Some o /\
        getProp o "songName" = getProp t "songName" /\
        getProp o "durationSeconds" = getProp t "durationSeconds" /\
        getProp o "showDate" = getProp t "showDate" /\
        getProp o "venue" = Ok venue /\ truthy venue = true.
Proof.
  set (longest := firstn 3 (sortBy byDurationDesc (filter validTrack tracks))).
  assert (Hall : forall t, In t longest -> truthy t = true).
  { intros t Hin. apply validTrack_truthy. unfold longest in Hin.
    apply in_firstn in Hin.
    apply (Permutation_in _ (Permutation_sym (sortBy_perm byDurationDesc _)))
      in Hin.
    apply filter_In in Hin. tauto. }
  destruct (mapM_formatLongestSong longest Hall)
    as (formatted & Hrun & Hlen & Hnth).
  exists longest, formatted.
  split; [destruct tracks; reflexivity|].
  split; [unfold formatLongestSongsForAPI, arrayMap; now rewrite Hrun|].
  split; assumption.
Qed.

Lemma makeEntry_lastPlayed (show gi name : value) (n : Z) (e : RarestSong) :
  makeEntry show gi name n = Ok e ->
  exists lp hlp,
    getProp gi "lastPlayed" = Ok lp /\
    getProp gi "historicalLastPlayed" = Ok hlp /\
    lastPlayed e = orElse lp VNull /\
    historicalLastPlayed e = orElse hlp lp.
Proof.
  unfold makeEntry. intros H.
  apply bind_Ok_inv in H. destruct H as [lp [Hlp H]].
  apply bind_Ok_inv in H. destruct H as [date [_ H]].
  apply bind_Ok_inv in H. destruct H as [ven [_ H]].
  apply bind_Ok_inv in H. destruct H as [tp [_ H]].
  apply bind_Ok_inv in H. destruct H as [hv [_ H]].
  apply bind_Ok_inv in H. destruct H as [hc [_ H]].
  apply bind_Ok_inv in H. destruct H as [hs [_ H]].
  apply bind_Ok_inv in H. destruct H as [hlp [Hhlp H]].
  injection H as <-. exists lp, hlp. simpl. auto.
Qed.

(** X13. In the published rarest songs the sentinel of the formatter never
    fires: every record the reducer returns already has a truthy
    [tourVenue], which is published as it is, with the name, the gap and
    the date.  The published [lastPlayed] is the [lastPlayed] of the
    observation the record was built from when truthy, else its
    [historicalLastPlayed] when truthy, else its [lastPlayed] as it is. *)
Theorem formatRarestSongsForAPI_on_reducer_output (tourShows : value)
  (out : list RarestSong) (i : nat) (e : RarestSong) :
  calculateTourProgressiveRarestSongs tourShows = Ok out ->
  nth_error out i = Some e ->
  exists k show gi lp hlp,
    firstMaximal (observationsOf tourShows) k show gi (gap e) /\
    songKey e = Some k /\
    getProp gi "songName" = Ok (songName e) /\
    makeEntry show gi (songName e) (gap e) = Ok e /\
    getProp gi "lastPlayed" = Ok lp /\
    getProp gi "historicalLastPlayed" = Ok hlp /\
    nth_error (formatRarestSongsForAPI out) i
    = Some (VObj [("songName", songName e);
                  ("gap", VNum (gap e));
                  ("lastPlayed", orElse lp (orElse hlp lp));
                  ("tourDate", tourDate e);
                  ("tourVenue", tourVenue e)]) /\
    truthy (tourVenue e) = true.
Proof.
  intros Hrun Hnth.
  destruct (output_entry_retained _ _ _ Hrun (nth_error_In _ _ Hnth))
    as (m & k & Hm & Hk).
  destruct (retained_entry_origin _ _ _ _ Hm Hk)
    as (show & gi & Hfm & Hkey & Hname & Hmk).
  destruct (makeEntry_lastPlayed _ _ _ _ _ Hmk)
    as (lp & hlp & Hlp & Hhlp & Elp & Ehlp).
  destruct (makeEntry_fields _ _ _ _ _ Hmk)
    as (_ & ven & _ & _ & _ & _ & _ & _ & Hven & _).
  assert (Ht : truthy (tourVenue e) = true).
  { rewrite Hven. unfold orElse.
    destruct (truthy ven) eqn:Hv; [assumption | reflexivity]. }
  exists k, show, gi, lp, hlp. repeat split; try assumption.
  unfold formatRarestSongsForAPI. rewrite nth_error_map, Hnth.
  cbn [option_map]. unfold formatRarestSong.
  assert (E1 : orElse (lastPlayed e) (historicalLastPlayed e)
               = orElse lp (orElse hlp lp)).
  { rewrite Elp, Ehlp. unfold orElse.
    destruct (truthy lp) eqn:T; [now rewrite T|]. reflexivity. }
  assert (E2 : orElse (tourVenue e) (VStr "Unknown Venue") = tourVenue e).
  { unfold orElse. now rewrite Ht. }
  now rewrite E1, E2.
Qed.

Lemma formatRarestSongsForAPI_on_reducer_output_witness :
  exists out e,
    calculateTourProgressiveRarestSongs (VArr [emptyVenueShow]) = Ok out /\
    nth_error out 0 = Some e /\
    exists k show gi lp hlp,
      firstMaximal (observationsOf (VArr [emptyVenueShow])) k show gi (gap e)
      /\ songKey e = Some k /\
      getProp gi "songName" = Ok (songName e) /\
      makeEntry show gi (songName e) (gap e) = Ok e /\
      getProp gi "lastPlayed" = Ok lp /\
      getProp gi "historicalLastPlayed" = Ok hlp /\
      nth_error (formatRarestSongsForAPI out) 0
      = Some (VObj [("songName", songName e);
                    ("gap", VNum (gap e));
                    ("lastPlayed", orElse lp (orElse hlp lp));
                    ("tourDate", tourDate e);
                    ("tourVenue", tourVenue e)]) /\
      truthy (tourVenue e) = true.
Proof.
  eexists. eexists. split; [vm_compute; reflexivity|].
  split; [reflexivity|].
  eapply (formatRarestSongsForAPI_on_reducer_output (VArr [emptyVenueShow]));
    [vm_compute; reflexivity | reflexivity].
Defined.

(** * The shows handed to the reducer *)

Lemma enhanceGap_shape (showdate venue gap gi : value) :
  enhanceGap showdate venue gap = Ok gi ->
  getProp gi "tourDate" = Ok showdate /\
  getProp gi "tourVenue" = Ok venue /\
  (exists tp, getProp gi "timesPlayed" = Ok tp /\ truthy tp = true) /\
  getProp gi "songName" = getProp gap "songName" /\
  getProp gi "gap" = getProp gap "gap".
Proof.
  unfold enhanceGap. intros H.
  apply bind_Ok_inv in H. destruct H as [name [Hname H]].
  apply bind_Ok_inv in H. destruct H as [g [Hg H]].
  apply bind_Ok_inv in H. destruct H as [lp [_ H]].
  apply bind_Ok_inv in H. destruct H as [tp [_ H]].
  injection H as <-. rewrite Hname, Hg.
  repeat split. exists (orElse tp (VNum 100)). split; [reflexivity|].
  unfold orElse. destruct (truthy tp) eqn:T; [assumption | reflexivity].
Qed.

Lemma mapM_In (f : value -> result value) (l : list value) :
  forall ys y,
    mapM f l = Ok ys -> In y ys -> exists x, In x l /\ f x = Ok y.
Proof.
  induction l as [|x l IH]; cbn [mapM]; intros ys y H Hin.
  - injection H as <-. destruct Hin.
  - apply bind_Ok_inv in H. destruct H as [y0 [Hy0 H]].
    apply bind_Ok_inv in H. destruct H as [ys0 [Hys0 H]].
    injection H as <-. destruct Hin as [<-|Hin].
    + exists x. split; [now left | assumption].
    + destruct (IH _ _ Hys0 Hin) as (x' & Hx' & Hfx').
      exists x'. split; [now right | assumption].
Qed.

Lemma mapM_length (f : value -> result value) (l : list value) :
  forall ys, mapM f l = Ok ys -> List.length ys = List.length l.
Proof.
  induction l as [|x l IH]; cbn [mapM]; intros ys H.
  - now injection H as <-.
  - apply bind_Ok_inv in H. destruct H as [y0 [_ H]].
    apply bind_Ok_inv in H. destruct H as [ys0 [Hys0 H]].
    injection H as <-. simpl. now rewrite (IH _ Hys0).
Qed.

Lemma extractVenue_truthy (apiResponse venue : value) :
  extractVenue apiResponse = Ok venue -> truthy venue = true.
Proof.
  intros H. unfold extractVenue in H.
  apply bind_Ok_inv in H. destruct H as [v1 [_ H]].
  apply bind_Ok_inv in H. destruct H as [v2 [_ H]].
  apply bind_Ok_inv in H. destruct H as [v3 [_ H]].
  apply bind_Ok_inv in H. destruct H as [v4 [_ H]].
  injection H as <-.
  destruct (venue_or_unknown
              (orElse v1 (orElse v2 (orElse v3 (orElse v4 VNull)))))
    as [-> Ht].
  exact Ht.
Qed.

Lemma obind_Some {A B : Type} (o : option A) (k : A -> option B) (b : B) :
  obind o k = Some b -> exists a, o = Some a /\ k a = Some b.
Proof. destruct o as [a|]; simpl; intros H; [eauto | discriminate]. Qed.

Lemma caught_Some {A : Type} (r : result A) (a : A) :
  caught r = Some a -> r = Ok a.
Proof. destruct r; simpl; intros H; [congruence | discriminate]. Qed.

Lemma enhanceShowTry_shape fss fsg (index : nat) (show enhanced : value) :
  enhanceShowTry fss fsg index show = Some enhanced ->
  enhancedShape enhanced /\
  getProp enhanced "showDate" = getProp show "showdate".
Proof.
  unfold enhanceShowTry. intros H.
  apply obind_Some in H. destruct H as [showdate [Hdate H]].
  apply obind_Some in H. destruct H as [setlist [_ H]].
  apply obind_Some in H. destruct H as [fromSetlist [_ H]].
  apply obind_Some in H. destruct H as [venue [Hvenue H]].
  apply obind_Some in H. destruct H as [songNames [_ H]].
  apply obind_Some in H. destruct H as [gapData [_ H]].
  apply obind_Some in H. destruct H as [songGaps [Hgaps H]].
  injection H as <-. apply caught_Some in Hdate, Hgaps.
  assert (Hv : truthy venue = true).
  { destruct (negb (isUnknownVenue fromSetlist));
      apply caught_Some in Hvenue; eapply extractVenue_truthy; eauto. }
  unfold arrayMap in Hgaps. destruct gapData; try discriminate.
  apply bind_Ok_inv in Hgaps. destruct Hgaps as [gis [Hgis Hgaps]].
  injection Hgaps as <-.
  split; [|now rewrite Hdate].
  exists showdate, venue, gis. repeat split; try assumption; try reflexivity.
  - destruct (mapM_In _ _ _ _ Hgis H) as (gap & _ & Hgap).
    apply (enhanceGap_shape _ _ _ _ Hgap).
  - destruct (mapM_In _ _ _ _ Hgis H) as (gap & _ & Hgap).
    apply (enhanceGap_shape _ _ _ _ Hgap).
  - destruct (mapM_In _ _ _ _ Hgis H) as (gap & _ & Hgap).
    apply (enhanceGap_shape _ _ _ _ Hgap).
Qed.

Lemma enhanceShowCatch_shape (show enhanced : value) :
  enhanceShowCatch show = Ok enhanced ->
  enhancedShape enhanced /\
  getProp enhanced "showDate" = getProp show "showdate".
Proof.
  unfold enhanceShowCatch. intros H.
  apply bind_Ok_inv in H. destruct H as [showdate [Hdate H]].
  apply bind_Ok_inv in H. destruct H as [venue [_ H]].
  injection H as <-. split; [|now rewrite Hdate].
  exists showdate, (orElse venue (VStr "Unknown Venue")), [].
  repeat split; try reflexivity; try (intros; contradiction).
  unfold orElse. destruct (truthy venue) eqn:T; [assumption | reflexivity].
Qed.

Lemma enhanceShows_shape fss fsg (shows : list value) :
  forall index enhancedShows,
    enhanceShows fss fsg index shows = Ok enhancedShows ->
    List.length enhancedShows = List.length shows /\
    forall i show,
      nth_error shows i = Some show ->
      exists enhanced,
        nth_error enhancedShows i = Some enhanced /\
        enhancedShape enhanced /\
        getProp enhanced "showDate" = getProp show "showdate".
Proof.
  induction shows as [|show shows IH]; cbn [enhanceShows];
    intros index enhancedShows H.
  - injection H as <-. split; [reflexivity|].
    intros [|i] s Hs; discriminate.
  - apply bind_Ok_inv in H. destruct H as [enhanced [He H]].
    apply bind_Ok_inv in H. destruct H as [others [Ho H]].
    injection H as <-. destruct (IH _ _ Ho) as [Hlen Hnth].
    split; [simpl; now rewrite Hlen|].
    intros [|i] s Hs; cbn [nth_error] in *.
    + assert (s = show) as -> by congruence. exists enhanced.
      split; [reflexivity|].
      destruct (enhanceShowTry fss fsg index show) as [e|] eqn:Etry.
      * assert (e = enhanced) as -> by congruence.
        now apply (enhanceShowTry_shape fss fsg index show).
      * now apply enhanceShowCatch_shape.
    + now apply Hnth.
Qed.

(** X14. [fetchTourShowsWithGaps] never raises and always returns an
    array: either the empty one, or one show per show of the tour, in
    order, under the date of that show.  Every show in it has a truthy
    venue and an array of observations, and every observation carries the
    date and the venue of its show and a truthy [timesPlayed]. *)
Theorem fetchTourShowsWithGaps_shape (fetchAllTourShows : outcome value)
  (fetchShowSetlist : nat -> value -> outcome value)
  (fetchSongGaps : nat -> list value -> value -> outcome value) :
  exists enhancedShows,
    fetchTourShowsWithGaps fetchAllTourShows fetchShowSetlist fetchSongGaps
    = VArr enhancedShows /\
    (forall enhanced, In enhanced enhancedShows -> enhancedShape enhanced) /\
    (enhancedShows = [] \/
     exists tourShows shows,
       fetchAllTourShows = Resolved tourShows /\
       iterate tourShows = Ok shows /\
       List.length enhancedShows = List.length shows /\
       forall i show,
         nth_error shows i = Some show ->
         exists enhanced,
           nth_error enhancedShows i = Some enhanced /\
           getProp enhanced "showDate" = getProp show "showdate").
Proof.
  unfold fetchTourShowsWithGaps.
  destruct fetchAllTourShows as [tourShows|];
    [|exists []; split; [reflexivity | split; [intros ? [] | now left]]].
  destruct (iterate tourShows) as [shows|] eqn:Hit; cbn [bind];
    [|exists []; split; [reflexivity | split; [intros ? [] | now left]]].
  destruct (enhanceShows fetchShowSetlist fetchSongGaps 0 shows)
    as [enhancedShows|] eqn:Hrun;
    [|exists []; split; [reflexivity | split; [intros ? [] | now left]]].
  destruct (enhanceShows_shape _ _ _ _ _ Hrun) as [Hlen Hnth].
  exists enhancedShows. split; [reflexivity|]. split.
  - intros enhanced Hin. apply In_nth_error in Hin. destruct Hin as [i Hi].
    assert (Hlt : (i < List.length shows)%nat).
    { rewrite <- Hlen. apply nth_error_Some. congruence. }
    destruct (nth_error shows i) as [show|] eqn:Hs;
      [|apply nth_error_None in Hs; lia].
    destruct (Hnth _ _ Hs) as (enhanced' & Hi' & Hshape & _).
    assert (enhanced' = enhanced) as -> by congruence. exact Hshape.
  - right. exists tourShows, shows. repeat split; try assumption.
    intros i show Hs. destruct (Hnth _ _ Hs) as (enhanced & Hi & _ & Hd).
    eauto.
Qed.




(** * When the tour-wide fetches fail *)







